(** * Automata simulator: a shallow embedding of [automata_simulator.c]

    The C program keeps one [FSM] structure that every function receives by
    pointer and updates in place.  The embedding threads that structure
    through a small monad which also records the array cells each function
    touches and stops with a fault where C would leave defined behaviour
    (an index outside an array, a cell that was never written, a string
    that is not terminated inside its buffer, a text too long for the
    buffer it is printed to).

    The [int] values of the program are integers of [Z].  Each increment the
    program makes follows a comparison of the same variable with a bound
    far below [INT_MAX] (a capacity, a count, or the index of a store that
    was inside its array), so the wrap-around of [int] is never reached and
    is not written out. *)

From Stdlib Require Import ZArith String Ascii Lia.
From stdpp Require Import gmap strings list.

Open Scope Z_scope.

(** ** Constants of the program *)

Definition MAX_STATES : Z := 100.
Definition MAX_TRANSITIONS : Z := 500.
Definition MAX_ALPHABET : Z := 26.
Definition MAX_TRACE : Z := 100.
Definition MAX_NAME_LEN : nat := 50.
Definition MESSAGE_LEN : nat := 256.

(** ** C strings *)

Definition NUL : ascii := Ascii.zero.
Definition LF : string := String (ascii_of_nat 10) EmptyString.

(** A [const char *] argument is the list of bytes found at the pointer;
    the bytes that count are those before the first NUL (the end of the
    list stands for the terminator of a literal). *)
Fixpoint c_str (s : list ascii) : list ascii :=
  match s with
  | [] => []
  | c :: s' => if decide (c = NUL) then [] else c :: c_str s'
  end.

Definition strlen (s : list ascii) : nat := length (c_str s).

(** The [n] bytes that [strncpy (dest, src, n)] stores at [dest]: the string
    cut at [n] bytes, then NUL bytes up to [n]. *)
Definition strncpy (src : list ascii) (n : nat) : list ascii :=
  take n (c_str src) ++ replicate (n - strlen src) NUL.

(** What [%s] prints for a buffer of [n] bytes: the bytes before the first
    NUL, when there is one inside the buffer. *)
Fixpoint read_str (n : nat) (buf : list ascii) : option (list ascii) :=
  match n, buf with
  | S n', c :: buf' =>
      if decide (c = NUL) then Some [] else (c ::.) <$> read_str n' buf'
  | _, _ => None
  end.

(** ** Data structures *)

Record State := mkState {
  name : list ascii;          (* char name[MAX_NAME_LEN] *)
  isAccepting : Z
}.

Record Transition := mkTransition {
  fromState : Z;
  toState : Z;
  symbol : ascii
}.

(** An array is the finite map of the cells written so far: the program
    declares its [FSM] and its [ProcessResult] as automatic variables and
    never clears them, so a cell holds a value only once it was stored. *)
Record FSM := mkFSM {
  states : gmap Z State;              (* State states[MAX_STATES] *)
  stateCount : Z;
  transitions : gmap Z Transition;    (* Transition transitions[MAX_TRANSITIONS] *)
  transitionCount : Z;
  initialState : Z;
  currentState : Z;
  alphabet : gmap Z ascii;            (* char alphabet[MAX_ALPHABET] *)
  alphabetSize : Z
}.

Record TraceEntry := mkTraceEntry {
  message : string                    (* char message[256] *)
}.

Record ProcessResult := mkProcessResult {
  accepted : Z;
  trace : gmap Z TraceEntry;          (* TraceEntry trace[MAX_TRACE] *)
  traceCount : Z
}.

Definition set_states (v : gmap Z State) (f : FSM) : FSM :=
  mkFSM v (stateCount f) (transitions f) (transitionCount f)
        (initialState f) (currentState f) (alphabet f) (alphabetSize f).
Definition set_stateCount (v : Z) (f : FSM) : FSM :=
  mkFSM (states f) v (transitions f) (transitionCount f)
        (initialState f) (currentState f) (alphabet f) (alphabetSize f).
Definition set_transitions (v : gmap Z Transition) (f : FSM) : FSM :=
  mkFSM (states f) (stateCount f) v (transitionCount f)
        (initialState f) (currentState f) (alphabet f) (alphabetSize f).
Definition set_transitionCount (v : Z) (f : FSM) : FSM :=
  mkFSM (states f) (stateCount f) (transitions f) v
        (initialState f) (currentState f) (alphabet f) (alphabetSize f).
Definition set_initialState (v : Z) (f : FSM) : FSM :=
  mkFSM (states f) (stateCount f) (transitions f) (transitionCount f)
        v (currentState f) (alphabet f) (alphabetSize f).
Definition set_currentState (v : Z) (f : FSM) : FSM :=
  mkFSM (states f) (stateCount f) (transitions f) (transitionCount f)
        (initialState f) v (alphabet f) (alphabetSize f).
Definition set_alphabet (v : gmap Z ascii) (f : FSM) : FSM :=
  mkFSM (states f) (stateCount f) (transitions f) (transitionCount f)
        (initialState f) (currentState f) v (alphabetSize f).
Definition set_alphabetSize (v : Z) (f : FSM) : FSM :=
  mkFSM (states f) (stateCount f) (transitions f) (transitionCount f)
        (initialState f) (currentState f) (alphabet f) v.

Definition set_accepted (v : Z) (r : ProcessResult) : ProcessResult :=
  mkProcessResult v (trace r) (traceCount r).
Definition set_trace (v : gmap Z TraceEntry) (r : ProcessResult) : ProcessResult :=
  mkProcessResult (accepted r) v (traceCount r).
Definition set_traceCount (v : Z) (r : ProcessResult) : ProcessResult :=
  mkProcessResult (accepted r) (trace r) v.

(** ** The monad: state, access log and faults *)

Inductive array_id := AStates | ATransitions | AAlphabet | ATrace.

Definition capacity (a : array_id) : Z :=
  match a with
  | AStates => MAX_STATES
  | ATransitions => MAX_TRANSITIONS
  | AAlphabet => MAX_ALPHABET
  | ATrace => MAX_TRACE
  end.

Inductive event :=
  | EvRead (a : array_id) (i : Z)     (* a[i] is read *)
  | EvWrite (a : array_id) (i : Z)    (* a[i] is written *)
  | EvPrintf (s : string).            (* text sent to the console *)

Inductive fault :=
  | OutOfBounds (a : array_id) (i : Z)
  | Uninitialised (a : array_id) (i : Z)
  | Unterminated
  | MessageOverflow.

Inductive outcome (A : Type) :=
  | Done (v : A)
  | Fault (f : fault).
Arguments Done {A} v.
Arguments Fault {A} f.

(** A computation receives the structure behind the [FSM *] and gives back
    its outcome, the structure as it stands at the end (or at the fault) and
    the accesses made, oldest first. *)
Definition M (A : Type) : Type := FSM -> outcome A * FSM * list event.

Definition ret {A} (v : A) : M A := fun s => (Done v, s, []).

Definition bind {A B} (m : M A) (k : A -> M B) : M B :=
  fun s =>
    match m s with
    | (Done v, s1, l1) =>
        match k v s1 with
        | (o, s2, l2) => (o, s2, l1 ++ l2)
        end
    | (Fault f, s1, l1) => (Fault f, s1, l1)
    end.

Definition get : M FSM := fun s => (Done s, s, []).
Definition put (s' : FSM) : M unit := fun _ => (Done tt, s', []).
Definition log (e : event) : M unit := fun s => (Done tt, s, [e]).
Definition raise {A} (f : fault) : M A := fun s => (Fault f, s, []).

Declare Scope fsm_scope.
Delimit Scope fsm_scope with fsm.
Notation "x <- m ;; k" := (bind m (fun x => k))
  (at level 100, m at next level, right associativity) : fsm_scope.
Notation "m ;;; k" := (bind m (fun _ => k))
  (at level 100, right associativity) : fsm_scope.
Open Scope fsm_scope.

Definition printf (s : string) : M unit := log (EvPrintf s).

(** [a[i]] as an rvalue. *)
Definition load {T} (a : array_id) (cells : gmap Z T) (i : Z) : M T :=
  log (EvRead a i) ;;;
  if decide (0 <= i < capacity a) then
    match cells !! i with
    | Some v => ret v
    | None => raise (Uninitialised a i)
    end
  else raise (OutOfBounds a i).

(** [a[i] = v]; the result is the array after the store. *)
Definition store {T} (a : array_id) (cells : gmap Z T) (i : Z) (v : T)
  : M (gmap Z T) :=
  log (EvWrite a i) ;;;
  if decide (0 <= i < capacity a) then ret (<[i := v]> cells)
  else raise (OutOfBounds a i).

(** ** The functions of the program *)

Definition states_full_message : string :=
  "Error: Maximum number of states reached" +:+ LF.
Definition transitions_full_message : string :=
  "Error: Maximum number of transitions reached" +:+ LF.

Definition initializeFSM : M unit :=
  fsm <- get ;;
  put (set_alphabetSize 0
        (set_currentState 0
          (set_initialState 0
            (set_transitionCount 0
              (set_stateCount 0 fsm))))).

(** The two statements that fill [name] store all of its [MAX_NAME_LEN]
    bytes: [strncpy] the first [MAX_NAME_LEN - 1], the assignment the last. *)
Definition addState (nm : list ascii) (acc : Z) : M Z :=
  fsm <- get ;;
  if decide (MAX_STATES <= stateCount fsm) then
    printf states_full_message ;;;
    ret (-1)
  else
    let st := {| name := strncpy nm (MAX_NAME_LEN - 1) ++ [NUL];
                 isAccepting := acc |} in
    cells <- store AStates (states fsm) (stateCount fsm) st ;;
    put (set_stateCount (stateCount fsm + 1) (set_states cells fsm)) ;;;
    ret (stateCount fsm).

(** [for (i = 0; i < fsm->alphabetSize; i++)]: [todo] counts the iterations
    that remain, [alphabetSize - i]. *)
Fixpoint charInAlphabet_from (todo : nat) (i : Z) (c : ascii) : M Z :=
  match todo with
  | O => ret 0
  | S todo' =>
      fsm <- get ;;
      x <- load AAlphabet (alphabet fsm) i ;;
      if decide (x = c) then ret 1
      else charInAlphabet_from todo' (i + 1) c
  end.

Definition charInAlphabet (c : ascii) : M Z :=
  fsm <- get ;;
  charInAlphabet_from (Z.to_nat (alphabetSize fsm)) 0 c.

Definition addToAlphabet (c : ascii) : M unit :=
  inA <- charInAlphabet c ;;
  fsm <- get ;;
  if decide (inA = 0) then
    if decide (alphabetSize fsm < MAX_ALPHABET) then
      cells <- store AAlphabet (alphabet fsm) (alphabetSize fsm) c ;;
      put (set_alphabetSize (alphabetSize fsm + 1) (set_alphabet cells fsm))
    else ret tt
  else ret tt.

Definition addTransition (from to : Z) (c : ascii) : M unit :=
  fsm <- get ;;
  if decide (MAX_TRANSITIONS <= transitionCount fsm) then
    printf transitions_full_message
  else
    cells <- store ATransitions (transitions fsm) (transitionCount fsm)
                   {| fromState := from; toState := to; symbol := c |} ;;
    put (set_transitionCount (transitionCount fsm + 1)
          (set_transitions cells fsm)) ;;;
    addToAlphabet c.

Fixpoint findTransition_from (todo : nat) (i : Z) (cur : Z) (c : ascii) : M Z :=
  match todo with
  | O => ret (-1)
  | S todo' =>
      fsm <- get ;;
      t <- load ATransitions (transitions fsm) i ;;
      if decide (fromState t = cur /\ symbol t = c) then ret i
      else findTransition_from todo' (i + 1) cur c
  end.

Definition findTransition (cur : Z) (c : ascii) : M Z :=
  fsm <- get ;;
  findTransition_from (Z.to_nat (transitionCount fsm)) 0 cur c.

Definition resetFSM : M unit :=
  fsm <- get ;;
  put (set_currentState (initialState fsm) fsm).

(** [fsm->states[i].name] passed to a [%s] of [sprintf]. *)
Definition state_name (i : Z) : M string :=
  fsm <- get ;;
  st <- load AStates (states fsm) i ;;
  match read_str MAX_NAME_LEN (name st) with
  | Some s => ret (string_of_list_ascii s)
  | None => raise Unterminated
  end.

(** [sprintf (result.trace[result.traceCount].message, ...)] with the text
    the format expands to: the text and its terminator must fit the 256
    bytes of [message]. *)
Definition sprintf_trace (result : ProcessResult) (msg : string)
  : M ProcessResult :=
  cells <- store ATrace (trace result) (traceCount result)
                 {| message := msg |} ;;
  if decide (String.length msg < MESSAGE_LEN)%nat
  then ret (set_trace cells result)
  else raise MessageOverflow.

(** [result.traceCount++].  The store just before it was inside the array,
    so the increment stays far below [INT_MAX]. *)
Definition next_record (result : ProcessResult) : ProcessResult :=
  set_traceCount (traceCount result + 1) result.

Definition chr (c : ascii) : string := String c EmptyString.

Definition msg_start (nm : string) : string :=
  "Starting at state: " +:+ nm.
Definition msg_unknown (c : ascii) : string :=
  "Error: '" +:+ chr c +:+ "' not in alphabet".
Definition msg_read (c : ascii) (old new : string) : string :=
  "Read '" +:+ chr c +:+ "': " +:+ old +:+ " -> " +:+ new.
Definition msg_no_transition (c : ascii) (nm : string) : string :=
  "No transition for '" +:+ chr c +:+ "' from " +:+ nm.
Definition msg_accepted : string := "✓ String ACCEPTED".
Definition msg_rejected : string := "✗ String REJECTED".

(** The [for] loop of [processString] over the characters that remain.
    [inl] is a [return result] taken inside the loop, [inr] the result with
    which the loop ends when [i] reaches [strlen (input)]. *)
Fixpoint scan (rest : list ascii) (result : ProcessResult)
  : M (ProcessResult + ProcessResult) :=
  match rest with
  | [] => ret (inr result)
  | c :: rest' =>
      inA <- charInAlphabet c ;;
      if decide (inA = 0) then
        result <- sprintf_trace result (msg_unknown c) ;;
        ret (inl (next_record result))
      else
        fsm <- get ;;
        transIndex <- findTransition (currentState fsm) c ;;
        if decide (0 <= transIndex) then
          fsm <- get ;;
          let oldState := currentState fsm in
          t <- load ATransitions (transitions fsm) transIndex ;;
          put (set_currentState (toState t) fsm) ;;;
          old <- state_name oldState ;;
          new <- state_name (toState t) ;;
          result <- sprintf_trace result (msg_read c old new) ;;
          scan rest' (next_record result)
        else
          fsm <- get ;;
          nm <- state_name (currentState fsm) ;;
          result <- sprintf_trace result (msg_no_transition c nm) ;;
          ret (inl (next_record result))
  end.

Definition processString (input : list ascii) : M ProcessResult :=
  (* ProcessResult result: no cell of its trace is written yet *)
  let result := {| accepted := 0; trace := ∅; traceCount := 0 |} in
  resetFSM ;;;
  fsm <- get ;;
  nm <- state_name (currentState fsm) ;;
  result <- sprintf_trace result (msg_start nm) ;;
  r <- scan (c_str input) (next_record result) ;;
  match r with
  | inl result => ret result
  | inr result =>
      fsm <- get ;;
      st <- load AStates (states fsm) (currentState fsm) ;;
      let result := set_accepted (isAccepting st) result in
      result <- (if decide (accepted result = 0)
                 then sprintf_trace result msg_rejected
                 else sprintf_trace result msg_accepted) ;;
      ret (next_record result)
  end.

Definition createSampleFSM : M unit :=
  initializeFSM ;;;
  q0 <- addState (list_ascii_of_string "q0") 0 ;;
  q1 <- addState (list_ascii_of_string "q1") 0 ;;
  q2 <- addState (list_ascii_of_string "q2") 1 ;;
  addTransition q0 q1 "a" ;;;
  addTransition q1 q2 "b" ;;;
  addTransition q2 q0 "c" ;;;
  fsm <- get ;;
  put (set_currentState q0 (set_initialState q0 fsm)).

(** An [FSM] as [main] declares it: no cell written yet.  The five integers
    are whatever the stack holds; [initializeFSM] overwrites them all. *)
Definition automatic_FSM (junk : Z) : FSM :=
  mkFSM ∅ junk ∅ junk junk junk ∅ junk.

Definition state_after {A} (m : M A) (s : FSM) : FSM := (m s).1.2.
Definition result_of {A} (m : M A) (s : FSM) : outcome A := (m s).1.1.

Definition sampleFSM : FSM := state_after createSampleFSM (automatic_FSM 0).

(** ** What the tables of an automaton mean *)

(** [c] is one of the first [alphabetSize] cells of the alphabet. *)
Definition in_alphabet (fsm : FSM) (c : ascii) : Prop :=
  Exists (fun i => alphabet fsm !! i = Some c) (seqZ 0 (alphabetSize fsm)).

(** Cell [i] of the transition table leaves [q] on [c]. *)
Definition matches (fsm : FSM) (q : Z) (c : ascii) (i : Z) : Prop :=
  match transitions fsm !! i with
  | Some t => fromState t = q /\ symbol t = c
  | None => False
  end.

Global Instance in_alphabet_dec fsm c : Decision (in_alphabet fsm c).
Proof. unfold in_alphabet. apply _. Defined.

Global Instance matches_dec fsm q c i : Decision (matches fsm q c i).
Proof. unfold matches. destruct (transitions fsm !! i); apply _. Defined.

(** The first registered transition that leaves [q] on [c]. *)
Definition first_match (fsm : FSM) (q : Z) (c : ascii) : option Z :=
  snd <$> list_find (matches fsm q c) (seqZ 0 (transitionCount fsm)).

Definition delta (fsm : FSM) (q : Z) (c : ascii) : option Z :=
  first_match fsm q c ≫= fun i => toState <$> transitions fsm !! i.

Definition name_of (fsm : FSM) (i : Z) : string :=
  from_option string_of_list_ascii EmptyString
    (states fsm !! i ≫= fun st => read_str MAX_NAME_LEN (name st)).

Definition accepting_flag (fsm : FSM) (i : Z) : Z :=
  from_option isAccepting 0 (states fsm !! i).

(** ** Well-formed automata

    The invariant that [initializeFSM] sets up and that [addState] and
    [addTransition] keep: the counts stay inside the arrays, the cells
    below a count were stored, and a stored name ends inside its buffer. *)

Definition initialised {T} (cells : gmap Z T) (n : Z) : Prop :=
  Forall (fun i => is_Some (cells !! i)) (seqZ 0 n).

Definition terminated (st : State) : Prop :=
  is_Some (read_str MAX_NAME_LEN (name st)).

Definition named (cells : gmap Z State) (n : Z) : Prop :=
  Forall (fun i => from_option terminated False (cells !! i)) (seqZ 0 n).

Definition states_ok (fsm : FSM) : Prop :=
  0 <= stateCount fsm <= MAX_STATES /\ named (states fsm) (stateCount fsm).

Definition transitions_ok (fsm : FSM) : Prop :=
  0 <= transitionCount fsm <= MAX_TRANSITIONS /\
  initialised (transitions fsm) (transitionCount fsm).

Definition alphabet_ok (fsm : FSM) : Prop :=
  0 <= alphabetSize fsm <= MAX_ALPHABET /\
  initialised (alphabet fsm) (alphabetSize fsm).

Definition well_formed (fsm : FSM) : Prop :=
  states_ok fsm /\ transitions_ok fsm /\ alphabet_ok fsm.

(** The indices kept in the automaton designate states. *)
Definition valid_state (fsm : FSM) (q : Z) : Prop := 0 <= q < stateCount fsm.

Definition valid_indices (fsm : FSM) : Prop :=
  valid_state fsm (initialState fsm) /\
  Forall (fun i => from_option (fun t => valid_state fsm (toState t)) True
                     (transitions fsm !! i))
         (seqZ 0 (transitionCount fsm)).

(** The invariants are decidable, so that they can be checked on a given
    automaton by computation. *)
Global Instance from_option_dec {T} (P : T -> Prop) (Q : Prop) (o : option T)
  `{!forall x, Decision (P x)} `{!Decision Q} : Decision (from_option P Q o).
Proof. destruct o; apply _. Defined.

Global Instance terminated_dec st : Decision (terminated st).
Proof. unfold terminated. apply _. Defined.

Global Instance valid_state_dec fsm q : Decision (valid_state fsm q).
Proof. unfold valid_state. apply _. Defined.

Global Instance states_ok_dec fsm : Decision (states_ok fsm).
Proof. unfold states_ok, named. apply _. Defined.

Global Instance transitions_ok_dec fsm : Decision (transitions_ok fsm).
Proof. unfold transitions_ok, initialised. apply _. Defined.

Global Instance alphabet_ok_dec fsm : Decision (alphabet_ok fsm).
Proof. unfold alphabet_ok, initialised. apply _. Defined.

Global Instance well_formed_dec fsm : Decision (well_formed fsm).
Proof. unfold well_formed. apply _. Defined.

Global Instance valid_indices_dec fsm : Decision (valid_indices fsm).
Proof. unfold valid_indices. apply _. Defined.

(** ** The run that the specification describes

    Step by step as in the description of the engine: a symbol outside the
    alphabet stops the scan, so does a symbol without a transition from the
    current state; otherwise the cursor moves and the scan goes on. *)

Fixpoint failure_index (fsm : FSM) (q : Z) (rest : list ascii) : option nat :=
  match rest with
  | [] => None
  | c :: rest' =>
      if decide (in_alphabet fsm c) then
        match delta fsm q c with
        | Some q' => S <$> failure_index fsm q' rest'
        | None => Some O
        end
      else Some O
  end.

Fixpoint cursor_after (fsm : FSM) (q : Z) (rest : list ascii) : Z :=
  match rest with
  | [] => q
  | c :: rest' =>
      if decide (in_alphabet fsm c) then
        match delta fsm q c with
        | Some q' => cursor_after fsm q' rest'
        | None => q
        end
      else q
  end.

Fixpoint loop_records (fsm : FSM) (q : Z) (rest : list ascii) : list string :=
  match rest with
  | [] => []
  | c :: rest' =>
      if decide (in_alphabet fsm c) then
        match delta fsm q c with
        | Some q' =>
            msg_read c (name_of fsm q) (name_of fsm q')
              :: loop_records fsm q' rest'
        | None => [msg_no_transition c (name_of fsm q)]
        end
      else [msg_unknown c]
  end.

Definition verdict_record (flag : Z) : string :=
  if decide (flag = 0) then msg_rejected else msg_accepted.

Definition expected_records (fsm : FSM) (s : list ascii) : list string :=
  let q0 := initialState fsm in
  msg_start (name_of fsm q0) :: loop_records fsm q0 s ++
  match failure_index fsm q0 s with
  | None => [verdict_record (accepting_flag fsm (cursor_after fsm q0 s))]
  | Some _ => []
  end.

Definition expected_accepted (fsm : FSM) (s : list ascii) : Z :=
  match failure_index fsm (initialState fsm) s with
  | None => accepting_flag fsm (cursor_after fsm (initialState fsm) s)
  | Some _ => 0
  end.

(** A result whose trace holds the records [recs], in this order. *)
Definition traced (acc : Z) (recs : list string) : ProcessResult :=
  {| accepted := acc;
     trace := map_seqZ 0 (mkTraceEntry <$> recs);
     traceCount := Z.of_nat (length recs) |}.

Definition expected_result (fsm : FSM) (input : list ascii) : ProcessResult :=
  traced (expected_accepted fsm (c_str input))
         (expected_records fsm (c_str input)).

(** ** Accesses *)

Definition reads_within (a : array_id) (lo hi : Z) (e : event) : Prop :=
  exists i, e = EvRead a i /\ lo <= i < hi.

(** The accesses [processString] may make on a given automaton: reads below
    the counts, writes to the trace inside its array, nothing else. *)
Definition access_ok (fsm : FSM) (e : event) : Prop :=
  match e with
  | EvRead AStates i => 0 <= i < stateCount fsm
  | EvRead ATransitions i => 0 <= i < transitionCount fsm
  | EvRead AAlphabet i => 0 <= i < alphabetSize fsm
  | EvWrite ATrace i => 0 <= i < MAX_TRACE
  | _ => False
  end.

(** ** Sequences of calls *)

(** [addTransition] called once per entry of [calls], in order. *)
Fixpoint addTransitions (calls : list (Z * Z * ascii)) : M unit :=
  match calls with
  | [] => ret tt
  | (from, to, c) :: calls' => addTransition from to c ;;; addTransitions calls'
  end.

(** [addState] called [n] times. *)
Fixpoint addStates (n : nat) (nm : list ascii) (acc : Z) : M unit :=
  match n with
  | O => ret tt
  | S n' => addState nm acc ;;; addStates n' nm acc
  end.

(** The symbols passed by a sequence of calls to [addTransition]. *)
Definition symbols (calls : list (Z * Z * ascii)) : list ascii := calls.*2.

(** [alphabetContains]: [charInAlphabet] answers 1. *)
Definition alphabetContains (fsm : FSM) (c : ascii) : Prop :=
  result_of (charInAlphabet c) fsm = Done 1.

(** ** Automata and inputs used as examples *)

(** An automaton just initialised. *)
Definition fresh_FSM : FSM := state_after initializeFSM (automatic_FSM 0).

(** The sample automaton with its registry filled up to the maximum, and
    with its transition table filled up to the maximum. *)
Definition full_registry : FSM :=
  state_after (addStates 97 (list_ascii_of_string "extra") 0) sampleFSM.

Definition full_table : FSM :=
  state_after (addTransitions (replicate 497 (0, 1, "a"%char))) sampleFSM.

(** One transition for each of 27 distinct symbols. *)
Definition twenty_seven_calls : list (Z * Z * ascii) :=
  (fun c => (0, 0, c)) <$> list_ascii_of_string "abcdefghijklmnopqrstuvwxyzA".

(** A name longer than the buffer of a state. *)
Definition long_name : list ascii :=
  list_ascii_of_string
    "a_state_name_that_is_much_longer_than_the_forty_nine_bytes_kept".

(** Inputs of 98 and of 99 characters that the sample automaton scans to
    the end. *)
Definition input_98 : list ascii :=
  mjoin (replicate 32 (list_ascii_of_string "abc")) ++ list_ascii_of_string "ab".
Definition input_99 : list ascii :=
  mjoin (replicate 33 (list_ascii_of_string "abc")).

(** ** Properties of runs *)

(** [total m s Q]: from [s], [m] ends without a fault, and its value, final
    structure and accesses satisfy [Q]. *)
Definition total {A} (m : M A) (s : FSM)
    (Q : A -> FSM -> list event -> Prop) : Prop :=
  match m s with
  | (Done v, s', l) => Q v s' l
  | (Fault _, _, _) => False
  end.

(** [always m s Q]: however the run of [m] from [s] ends, its outcome, the
    structure it leaves and its accesses satisfy [Q]. *)
Definition always {A} (m : M A) (s : FSM)
    (Q : outcome A -> FSM -> list event -> Prop) : Prop :=
  match m s with
  | (o, s', l) => Q o s' l
  end.

(** A computation that leaves the structure as it found it. *)
Definition pure_run {A} (m : M A) : Prop :=
  forall s, always m s (fun _ s' _ => s' = s).

(** [s'] is [s] with, at most, another cursor. *)
Definition same_tables (s s' : FSM) : Prop :=
  s' = set_currentState (currentState s') s.

(** What [addToAlphabet] and [addTransition] leave alone. *)
Definition same_states (s s' : FSM) : Prop :=
  states s' = states s /\ stateCount s' = stateCount s /\
  initialState s' = initialState s /\ currentState s' = currentState s.

(** The kinds of record a trace is made of. *)
Definition is_start (s : string) : Prop := exists nm, s = msg_start nm.
Definition is_read (c : ascii) (s : string) : Prop :=
  exists old new, s = msg_read c old new.
Definition is_failure (c : ascii) (s : string) : Prop :=
  s = msg_unknown c \/ exists nm, s = msg_no_transition c nm.
Definition is_verdict (s : string) : Prop :=
  s = msg_accepted \/ s = msg_rejected.

(** * Proofs *)

(** ** Running computations *)

(** Closed goals that a decision procedure settles by evaluation. *)
Ltac by_computation := apply (bool_decide_unpack _); vm_compute; exact I.

Lemma total_run {A} (m : M A) s Q :
  total m s Q <-> exists v s' l, m s = (Done v, s', l) /\ Q v s' l.
Proof.
  unfold total. destruct (m s) as [[[v|f] s'] l]; split.
  - eauto.
  - intros (? & ? & ? & [= <- <- <-] & HQ). exact HQ.
  - intros [].
  - intros (? & ? & ? & [=] & _).
Qed.

Lemma total_conseq {A} (m : M A) s (Q Q' : A -> FSM -> list event -> Prop) :
  total m s Q -> (forall v s' l, Q v s' l -> Q' v s' l) -> total m s Q'.
Proof.
  unfold total. destruct (m s) as [[[v|f] s'] l]; [|intros []].
  intros HQ Himp. apply Himp, HQ.
Qed.

Lemma total_ret {A} (v : A) s (Q : A -> FSM -> list event -> Prop) :
  Q v s [] -> total (ret v) s Q.
Proof. intros HQ. exact HQ. Qed.

Lemma total_bind {A B} (m : M A) (k : A -> M B) s
    (Q : B -> FSM -> list event -> Prop) :
  total m s (fun v s1 l1 => total (k v) s1 (fun w s2 l2 => Q w s2 (l1 ++ l2))) ->
  total (bind m k) s Q.
Proof.
  unfold total, bind. destruct (m s) as [[[v|f] s1] l1]; [|intros []].
  destruct (k v s1) as [[[w|f] s2] l2]; [|intros []]. auto.
Qed.

Lemma total_get s (Q : FSM -> FSM -> list event -> Prop) :
  Q s s [] -> total get s Q.
Proof. intros HQ. exact HQ. Qed.

Lemma total_put s' s (Q : unit -> FSM -> list event -> Prop) :
  Q tt s' [] -> total (put s') s Q.
Proof. intros HQ. exact HQ. Qed.

Lemma total_load {T} a (cells : gmap Z T) i v s
    (Q : T -> FSM -> list event -> Prop) :
  0 <= i < capacity a -> cells !! i = Some v ->
  Q v s [EvRead a i] -> total (load a cells i) s Q.
Proof.
  intros Hi Hv HQ. unfold load. apply total_bind. unfold total at 1, log.
  rewrite decide_True by done. rewrite Hv. exact HQ.
Qed.

Lemma total_store {T} a (cells : gmap Z T) i v s
    (Q : gmap Z T -> FSM -> list event -> Prop) :
  0 <= i < capacity a ->
  Q (<[i := v]> cells) s [EvWrite a i] -> total (store a cells i v) s Q.
Proof.
  intros Hi HQ. unfold store. apply total_bind. unfold total at 1, log.
  rewrite decide_True by done. exact HQ.
Qed.

(** ** Ranges of indices *)

Lemma seqZ_S (i : Z) (n : nat) :
  seqZ i (Z.of_nat (S n)) = i :: seqZ (i + 1) (Z.of_nat n).
Proof.
  rewrite seqZ_cons by lia. f_equal. f_equal; lia.
Qed.

Lemma seqZ_O (i : Z) : seqZ i (Z.of_nat 0) = [].
Proof. reflexivity. Qed.

Lemma seqZ_to_nat (i n : Z) : seqZ i (Z.of_nat (Z.to_nat n)) = seqZ i n.
Proof. unfold seqZ. by rewrite Nat2Z.id. Qed.

Lemma initialised_lookup {T} (cells : gmap Z T) n i :
  initialised cells n -> 0 <= i < n -> is_Some (cells !! i).
Proof.
  unfold initialised. rewrite Forall_forall. intros H Hi.
  apply H, elem_of_seqZ. lia.
Qed.

(** ** The two searches *)

Lemma charInAlphabet_from_total fsm c todo : forall i,
  0 <= i -> i + Z.of_nat todo <= MAX_ALPHABET ->
  Forall (fun j => is_Some (alphabet fsm !! j)) (seqZ i (Z.of_nat todo)) ->
  total (charInAlphabet_from todo i c) fsm (fun v s' l =>
    s' = fsm /\
    v = (if decide (Exists (fun j => alphabet fsm !! j = Some c)
                           (seqZ i (Z.of_nat todo))) then 1 else 0) /\
    Forall (reads_within AAlphabet i (i + Z.of_nat todo)) l).
Proof.
  induction todo as [|todo IH]; intros i Hi Hcap Hinit.
  - apply total_ret. split; [done|]. split; [|constructor].
    rewrite decide_False; [done|]. rewrite seqZ_O. by intros ?%Exists_nil.
  - rewrite seqZ_S in *. apply Forall_cons in Hinit as [[x Hx] Hinit].
    cbn [charInAlphabet_from]. apply total_bind, total_get, total_bind.
    eapply total_load; [unfold capacity; lia | exact Hx |].
    destruct (decide (x = c)) as [->|Hne].
    + apply total_ret. split; [done|]. split.
      * rewrite decide_True; [done|]. by apply Exists_cons_hd.
      * repeat constructor. exists i. split; [done|lia].
    + eapply total_conseq; [apply (IH (i + 1)); [lia|lia|done]|].
      intros v s' l (-> & -> & Hl). split; [done|]. split.
      * destruct (decide (Exists _ (seqZ (i + 1) _))) as [He|He].
        -- rewrite decide_True; [done|]. by apply Exists_cons_tl.
        -- rewrite decide_False; [done|]. rewrite Exists_cons.
           intros [H|H]; [congruence|done].
      * constructor; [exists i; split; [done|lia]|].
        eapply Forall_impl; [exact Hl|]. intros e (j & -> & Hj).
        exists j. split; [done|lia].
Qed.

Lemma charInAlphabet_total fsm c :
  alphabet_ok fsm ->
  total (charInAlphabet c) fsm (fun v s' l =>
    s' = fsm /\
    v = (if decide (in_alphabet fsm c) then 1 else 0) /\
    Forall (reads_within AAlphabet 0 (alphabetSize fsm)) l).
Proof.
  intros [Hb Hinit]. unfold charInAlphabet. apply total_bind, total_get.
  eapply total_conseq.
  - apply (charInAlphabet_from_total fsm c _ 0); [lia|lia|].
    rewrite seqZ_to_nat. exact Hinit.
  - intros v s' l (-> & -> & Hl). rewrite seqZ_to_nat.
    split; [done|]. split; [done|].
    eapply Forall_impl; [exact Hl|]. intros e (j & -> & Hj).
    exists j. split; [done|lia].
Qed.

Lemma matches_cell fsm q c i t :
  transitions fsm !! i = Some t ->
  matches fsm q c i <-> fromState t = q /\ symbol t = c.
Proof. intros H. unfold matches. by rewrite H. Qed.

Lemma findTransition_from_total fsm q c todo : forall i,
  0 <= i -> i + Z.of_nat todo <= MAX_TRANSITIONS ->
  Forall (fun j => is_Some (transitions fsm !! j)) (seqZ i (Z.of_nat todo)) ->
  total (findTransition_from todo i q c) fsm (fun v s' l =>
    s' = fsm /\
    v = from_option snd (-1)
          (list_find (matches fsm q c) (seqZ i (Z.of_nat todo))) /\
    Forall (reads_within ATransitions i (i + Z.of_nat todo)) l).
Proof.
  induction todo as [|todo IH]; intros i Hi Hcap Hinit.
  - apply total_ret. by repeat split.
  - rewrite seqZ_S in *. apply Forall_cons in Hinit as [[t Ht] Hinit].
    cbn [findTransition_from list_find].
    apply total_bind, total_get, total_bind.
    eapply total_load; [unfold capacity; lia | exact Ht |].
    pose proof (matches_cell fsm q c i t Ht) as Hm.
    destruct (decide (fromState t = q /\ symbol t = c)) as [Hyes|Hno].
    + apply total_ret. split; [done|]. split.
      * rewrite decide_True by (by apply Hm). done.
      * repeat constructor. exists i. split; [done|lia].
    + eapply total_conseq; [apply (IH (i + 1)); [lia|lia|done]|].
      intros v s' l (-> & -> & Hl). split; [done|]. split.
      * rewrite decide_False by (by rewrite Hm).
        by destruct (list_find _ _) as [[? ?]|].
      * constructor; [exists i; split; [done|lia]|].
        eapply Forall_impl; [exact Hl|]. intros e (j & -> & Hj).
        exists j. split; [done|lia].
Qed.

Lemma findTransition_total fsm q c :
  transitions_ok fsm ->
  total (findTransition q c) fsm (fun v s' l =>
    s' = fsm /\
    v = default (-1) (first_match fsm q c) /\
    Forall (reads_within ATransitions 0 (transitionCount fsm)) l).
Proof.
  intros [Hb Hinit]. unfold findTransition. apply total_bind, total_get.
  eapply total_conseq.
  - apply (findTransition_from_total fsm q c _ 0); [lia|lia|].
    rewrite seqZ_to_nat. exact Hinit.
  - intros v s' l (-> & -> & Hl). rewrite seqZ_to_nat.
    split; [done|]. split.
    + unfold first_match. by destruct (list_find _ _) as [[? ?]|].
    + eapply Forall_impl; [exact Hl|]. intros e (j & -> & Hj).
      exists j. split; [done|lia].
Qed.

Lemma first_match_Some fsm q c i :
  first_match fsm q c = Some i <->
  0 <= i < transitionCount fsm /\ matches fsm q c i /\
  forall j, 0 <= j < i -> ~ matches fsm q c j.
Proof.
  unfold first_match. split.
  - intros H. apply fmap_Some in H as ([k x] & Hfind & ->). cbn.
    apply list_find_Some in Hfind as (Hk & Hm & Hleast).
    apply lookup_seqZ in Hk as [-> Hk]. split; [lia|]. split; [done|].
    intros j Hj. apply (Hleast (Z.to_nat j) j); [|lia].
    apply lookup_seqZ. lia.
  - intros (Hi & Hm & Hleast). apply fmap_Some. exists (Z.to_nat i, i).
    split; [|done]. apply list_find_Some. split; [apply lookup_seqZ; lia|].
    split; [done|]. intros k y Hk Hlt. apply lookup_seqZ in Hk as [-> Hk].
    apply Hleast. lia.
Qed.

Lemma first_match_None fsm q c :
  first_match fsm q c = None <->
  forall j, 0 <= j < transitionCount fsm -> ~ matches fsm q c j.
Proof.
  unfold first_match. rewrite fmap_None, list_find_None, Forall_forall.
  split.
  - intros H j Hj. apply H, elem_of_seqZ. lia.
  - intros H j Hj. apply elem_of_seqZ in Hj. apply H. lia.
Qed.

(** ** Names and messages *)

Lemma read_str_length n buf s : read_str n buf = Some s -> (length s < n)%nat.
Proof.
  revert buf s. induction n as [|n IH]; intros [|c buf] s; cbn; try done.
  destruct (decide (c = NUL)).
  - intros [= <-]. cbn. lia.
  - intros H. apply fmap_Some in H as (s' & Hs' & ->).
    apply IH in Hs'. cbn. lia.
Qed.

Lemma string_length_app (s1 s2 : string) :
  String.length (s1 +:+ s2) = (String.length s1 + String.length s2)%nat.
Proof.
  induction s1 as [|c s1 IH]; [done|].
  change (String c s1 +:+ s2) with (String c (s1 +:+ s2)). cbn. by rewrite IH.
Qed.

Lemma string_of_list_ascii_length (l : list ascii) :
  String.length (string_of_list_ascii l) = length l.
Proof. induction l as [|c l IH]; cbn; [done|]. by rewrite IH. Qed.

Lemma named_lookup cells n i :
  named cells n -> 0 <= i < n ->
  exists st, cells !! i = Some st /\ terminated st.
Proof.
  unfold named. rewrite Forall_forall. intros H Hi.
  specialize (H i). rewrite elem_of_seqZ in H.
  destruct (cells !! i) as [st|]; cbn in H; [|exfalso; apply H; lia].
  exists st. split; [done|]. apply H. lia.
Qed.

Lemma name_of_lookup fsm i st s :
  states fsm !! i = Some st -> read_str MAX_NAME_LEN (name st) = Some s ->
  name_of fsm i = string_of_list_ascii s.
Proof.
  intros Hst Hs. unfold name_of. rewrite Hst.
  change (Some st ≫= _) with (read_str MAX_NAME_LEN (name st)).
  by rewrite Hs.
Qed.

Lemma name_of_length fsm i : (String.length (name_of fsm i) < MAX_NAME_LEN)%nat.
Proof.
  unfold name_of.
  destruct (states fsm !! i ≫= _) as [s|] eqn:Hs; cbn [from_option].
  - apply bind_Some in Hs as (st & _ & Hs).
    rewrite string_of_list_ascii_length. by eapply read_str_length.
  - unfold MAX_NAME_LEN. cbn. lia.
Qed.

Lemma state_name_total fsm i :
  states_ok fsm -> valid_state fsm i ->
  total (state_name i) fsm (fun v s' l =>
    s' = fsm /\ v = name_of fsm i /\ l = [EvRead AStates i]).
Proof.
  intros [Hb Hn] Hi. destruct (named_lookup _ _ i Hn Hi) as (st & Hst & [s Hs]).
  unfold state_name. apply total_bind, total_get, total_bind.
  eapply total_load; [unfold capacity, valid_state in *; lia | exact Hst |].
  rewrite Hs. apply total_ret. by rewrite (name_of_lookup fsm i st s).
Qed.

Lemma sprintf_trace_total result msg s :
  0 <= traceCount result < MAX_TRACE ->
  (String.length msg < MESSAGE_LEN)%nat ->
  total (sprintf_trace result msg) s (fun r s' l =>
    s' = s /\
    r = set_trace (<[traceCount result := mkTraceEntry msg]> (trace result))
                  result /\
    l = [EvWrite ATrace (traceCount result)]).
Proof.
  intros Hi Hlen. unfold sprintf_trace. apply total_bind.
  apply total_store; [done|]. rewrite decide_True by done.
  by apply total_ret.
Qed.

Lemma msg_start_length fsm i :
  (String.length (msg_start (name_of fsm i)) < MESSAGE_LEN)%nat.
Proof.
  pose proof (name_of_length fsm i). unfold msg_start.
  rewrite string_length_app. unfold MESSAGE_LEN, MAX_NAME_LEN in *. cbn. lia.
Qed.

Lemma msg_unknown_length c : (String.length (msg_unknown c) < MESSAGE_LEN)%nat.
Proof.
  unfold msg_unknown. rewrite !string_length_app. unfold MESSAGE_LEN. cbn. lia.
Qed.

Lemma msg_read_length fsm c i j :
  (String.length (msg_read c (name_of fsm i) (name_of fsm j)) < MESSAGE_LEN)%nat.
Proof.
  pose proof (name_of_length fsm i). pose proof (name_of_length fsm j).
  unfold msg_read. rewrite !string_length_app.
  unfold MESSAGE_LEN, MAX_NAME_LEN in *. cbn. lia.
Qed.

Lemma msg_no_transition_length fsm c i :
  (String.length (msg_no_transition c (name_of fsm i)) < MESSAGE_LEN)%nat.
Proof.
  pose proof (name_of_length fsm i). unfold msg_no_transition.
  rewrite !string_length_app. unfold MESSAGE_LEN, MAX_NAME_LEN in *. cbn. lia.
Qed.

Lemma traced_snoc acc recs msg :
  next_record
    (set_trace (<[traceCount (traced acc recs) := mkTraceEntry msg]>
                  (trace (traced acc recs))) (traced acc recs))
  = traced acc (recs ++ [msg]).
Proof.
  unfold traced, next_record, set_trace, set_traceCount. cbn. f_equal.
  - rewrite fmap_app. cbn. by rewrite map_seqZ_snoc, length_fmap.
  - rewrite length_app. cbn. lia.
Qed.

Lemma delta_Some fsm q c q' :
  transitions_ok fsm -> delta fsm q c = Some q' ->
  exists i t, first_match fsm q c = Some i /\ 0 <= i < transitionCount fsm /\
              transitions fsm !! i = Some t /\ toState t = q'.
Proof.
  intros _ H. unfold delta in H. apply bind_Some in H as (i & Hi & Ht).
  apply fmap_Some in Ht as (t & Ht & ->). exists i, t.
  split; [done|]. split; [|done]. by apply first_match_Some in Hi as [? _].
Qed.

Lemma valid_target fsm i t :
  valid_indices fsm -> 0 <= i < transitionCount fsm ->
  transitions fsm !! i = Some t -> valid_state fsm (toState t).
Proof.
  intros [_ H] Hi Ht. rewrite Forall_forall in H. specialize (H i).
  rewrite Ht in H. apply H, elem_of_seqZ. lia.
Qed.

(** ** The scan of [processString] *)

Lemma reads_alphabet_ok fsm l :
  Forall (reads_within AAlphabet 0 (alphabetSize fsm)) l ->
  Forall (access_ok fsm) l.
Proof. intros H. eapply Forall_impl; [exact H|]. by intros e (i & -> & Hi). Qed.

Lemma reads_transitions_ok fsm l :
  Forall (reads_within ATransitions 0 (transitionCount fsm)) l ->
  Forall (access_ok fsm) l.
Proof. intros H. eapply Forall_impl; [exact H|]. by intros e (i & -> & Hi). Qed.

Ltac split_log :=
  repeat first
    [ apply Forall_nil_2
    | apply Forall_app_2
    | apply Forall_cons_2 ].

Lemma scan_total fsm :
  well_formed fsm -> valid_indices fsm ->
  forall rest q acc pre,
  valid_state fsm q ->
  Z.of_nat (length pre + length rest) < MAX_TRACE ->
  total (scan rest (traced acc pre)) (set_currentState q fsm)
    (fun out s' l =>
       s' = set_currentState (cursor_after fsm q rest) fsm /\
       valid_state fsm (cursor_after fsm q rest) /\
       out = match failure_index fsm q rest with
             | None => inr (traced acc (pre ++ loop_records fsm q rest))
             | Some _ => inl (traced acc (pre ++ loop_records fsm q rest))
             end /\
       Forall (access_ok fsm) l).
Proof.
  intros (Hst & Htr & Hal) Hvalid.
  induction rest as [|c rest IH]; intros q acc pre Hq Hroom.
  - apply total_ret. cbn. rewrite app_nil_r. by split_and!.
  - cbn [scan failure_index cursor_after loop_records].
    assert (Hcount : 0 <= traceCount (traced acc pre) < MAX_TRACE).
    { cbn in *. lia. }
    apply total_bind. eapply total_conseq;
      [apply (charInAlphabet_total (set_currentState q fsm) c Hal)|].
    intros v s' l1 (-> & -> & Hl1%reads_alphabet_ok).
    change (decide (in_alphabet (set_currentState q fsm) c))
      with (decide (in_alphabet fsm c)).
    destruct (decide (in_alphabet fsm c)) as [Hin|Hnin].
    + rewrite decide_False by done.
      apply total_bind, total_get. cbn [currentState set_currentState].
      apply total_bind. eapply total_conseq;
        [apply (findTransition_total (set_currentState q fsm) q c Htr)|].
      intros r s' l2 (-> & -> & Hl2%reads_transitions_ok).
      change (first_match (set_currentState q fsm) q c)
        with (first_match fsm q c).
      unfold delta. destruct (first_match fsm q c) as [i|] eqn:Hfm;
        cbn [from_option id mbind option_bind].
      * pose proof Hfm as (Hi & _ & _)%first_match_Some.
        destruct (initialised_lookup _ _ i (proj2 Htr) Hi) as [t Ht].
        pose proof (valid_target fsm i t Hvalid Hi Ht) as Hq'.
        rewrite Ht. cbn [fmap option_fmap option_map].
        rewrite decide_True by lia.
        apply total_bind, total_get. cbn [currentState set_currentState].
        apply total_bind.
        eapply total_load; [unfold capacity; destruct Htr; lia | exact Ht |].
        apply total_bind, total_put.
        apply total_bind. eapply total_conseq;
          [apply (state_name_total (set_currentState (toState t) fsm) q Hst Hq)|].
        intros old s' l3 (-> & -> & ->).
        apply total_bind. eapply total_conseq;
          [apply (state_name_total (set_currentState (toState t) fsm)
                    (toState t) Hst Hq')|].
        intros new s' l4 (-> & -> & ->).
        change (name_of (set_currentState (toState t) fsm)) with (name_of fsm).
        apply total_bind. eapply total_conseq;
          [apply sprintf_trace_total; [exact Hcount|apply msg_read_length]|].
        intros res s' l5 (-> & -> & ->). rewrite traced_snoc.
        eapply total_conseq;
          [apply (IH (toState t) acc _ Hq'); rewrite length_app; cbn in *; lia|].
        intros out s' l6 (-> & Hcur & -> & Hl6).
        split; [done|]. split; [done|]. split.
        -- rewrite <- app_assoc. cbn [app].
           by destruct (failure_index fsm (toState t) rest).
        -- split_log; try done; cbn; unfold valid_state in *; lia.
      * rewrite decide_False by lia.
        apply total_bind, total_get. cbn [currentState set_currentState].
        apply total_bind. eapply total_conseq;
          [apply (state_name_total (set_currentState q fsm) q Hst Hq)|].
        intros nm s' l3 (-> & -> & ->).
        change (name_of (set_currentState q fsm)) with (name_of fsm).
        apply total_bind. eapply total_conseq;
          [apply sprintf_trace_total;
           [exact Hcount|apply msg_no_transition_length]|].
        intros res s' l5 (-> & -> & ->). rewrite traced_snoc.
        apply total_ret. split; [done|]. split; [done|]. split; [done|].
        split_log; try done; cbn; unfold valid_state in *; lia.
    + rewrite decide_True by done.
      apply total_bind. eapply total_conseq;
        [apply sprintf_trace_total; [exact Hcount|apply msg_unknown_length]|].
      intros res s' l5 (-> & -> & ->). rewrite traced_snoc.
      apply total_ret. split; [done|]. split; [done|]. split; [done|].
      split_log; try done; cbn; lia.
Qed.

Lemma accepting_flag_lookup fsm i st :
  states fsm !! i = Some st -> accepting_flag fsm i = isAccepting st.
Proof. intros H. unfold accepting_flag. by rewrite H. Qed.

(** On a well-formed automaton with valid indices, [processString] returns
    the result the reference run describes and leaves the cursor where that
    run ends, provided the records fit the trace. *)
Lemma processString_total fsm input :
  well_formed fsm -> valid_indices fsm ->
  Z.of_nat (strlen input) + 2 <= MAX_TRACE ->
  total (processString input) fsm (fun r s' l =>
    r = expected_result fsm input /\
    s' = set_currentState
           (cursor_after fsm (initialState fsm) (c_str input)) fsm /\
    Forall (access_ok fsm) l).
Proof.
  intros Hwf Hvalid Hlen. pose proof Hwf as (Hst & Htr & Hal).
  pose proof Hvalid as [Hq0 _]. unfold strlen in Hlen.
  unfold processString, resetFSM.
  apply total_bind, total_bind, total_get, total_put, total_bind, total_get.
  cbn [currentState set_currentState].
  apply total_bind. eapply total_conseq;
    [apply (state_name_total (set_currentState (initialState fsm) fsm)
              (initialState fsm) Hst Hq0)|].
  intros nm s' l1 (-> & -> & ->).
  change (name_of (set_currentState (initialState fsm) fsm))
    with (name_of fsm).
  change {| accepted := 0; trace := ∅; traceCount := 0 |} with (traced 0 []).
  apply total_bind. eapply total_conseq;
    [apply sprintf_trace_total; [done|apply msg_start_length]|].
  intros res s' l2 (-> & -> & ->). rewrite traced_snoc. cbn [app].
  apply total_bind. eapply total_conseq;
    [apply (scan_total fsm Hwf Hvalid (c_str input) (initialState fsm) 0
              [msg_start (name_of fsm (initialState fsm))] Hq0);
     cbn [length]; unfold MAX_TRACE in *; lia|].
  intros out s' l3 (-> & Hcur & -> & Hl3). cbn [app].
  unfold expected_result, expected_records, expected_accepted.
  destruct (failure_index fsm (initialState fsm) (c_str input)) as [k|].
  - apply total_ret. rewrite app_nil_r. split; [done|]. split; [done|].
    split_log; try done; cbn; unfold valid_state in *; lia.
  - apply total_bind, total_get. cbn [currentState set_currentState states].
    destruct (named_lookup _ _ _ (proj2 Hst) Hcur) as (st & Hstate & _).
    apply total_bind.
    eapply total_load;
      [unfold capacity, valid_state in *; destruct Hst; lia | exact Hstate |].
    rewrite (accepting_flag_lookup _ _ _ Hstate).
    set (recs := msg_start (name_of fsm (initialState fsm))
                   :: loop_records fsm (initialState fsm) (c_str input)).
    change (set_accepted (isAccepting st) (traced 0 recs))
      with (traced (isAccepting st) recs).
    assert (Hcount : 0 <= traceCount (traced (isAccepting st) recs) < MAX_TRACE).
    { cbn [traceCount traced]. split; [lia|]. subst recs. cbn [length].
      assert (length (loop_records fsm (initialState fsm) (c_str input))
              <= length (c_str input))%nat; [|unfold MAX_TRACE in *; lia].
      clear. generalize (initialState fsm). induction (c_str input) as [|c s IH];
        intros q; cbn; [lia|].
      destruct (decide _); [|cbn; lia].
      destruct (delta fsm q c); cbn; [|lia]. specialize (IH z). lia. }
    apply total_bind. eapply total_conseq.
    { instantiate (1 := fun res s' l =>
        s' = set_currentState
               (cursor_after fsm (initialState fsm) (c_str input)) fsm /\
        res = set_trace
                (<[traceCount (traced (isAccepting st) recs) :=
                     mkTraceEntry (verdict_record (isAccepting st))]>
                   (trace (traced (isAccepting st) recs)))
                (traced (isAccepting st) recs) /\
        l = [EvWrite ATrace (traceCount (traced (isAccepting st) recs))]).
      unfold verdict_record.
      change (accepted (traced (isAccepting st) recs)) with (isAccepting st).
      destruct (decide (isAccepting st = 0));
        (apply sprintf_trace_total;
         [exact Hcount|unfold MESSAGE_LEN, msg_rejected, msg_accepted; cbn; lia]). }
    intros res s' l4 (-> & -> & ->). rewrite traced_snoc.
    apply total_ret. split; [done|]. split; [done|].
    split_log; try done; cbn; unfold valid_state in *; lia.
Qed.

(** ** Automata built by the program are well formed *)

Lemma named_intro cells n :
  (forall i, 0 <= i < n -> exists st, cells !! i = Some st /\ terminated st) ->
  named cells n.
Proof.
  intros H. unfold named. apply Forall_forall. intros i Hi.
  apply elem_of_seqZ in Hi. destruct (H i) as (st & -> & Hst); [lia|done].
Qed.

Lemma initializeFSM_well_formed g : well_formed (state_after initializeFSM g).
Proof.
  repeat split; try apply Forall_nil_2;
    cbn; unfold MAX_STATES, MAX_TRANSITIONS, MAX_ALPHABET; lia.
Qed.

(** * The claims *)

(** ** Transition lookup *)

(** C8.  On an automaton whose transition table is within its array and
    stored up to [transitionCount], [findTransition] returns without touching
    the automaton, and its value is the smallest index below
    [transitionCount] whose transition leaves the given state on the given
    symbol, or -1 when no transition below [transitionCount] does.  With
    several transitions on one (state, symbol) pair the first registered one
    is therefore the one returned. *)
Theorem findTransition_first_registered fsm q c :
  transitions_ok fsm ->
  exists r l,
    findTransition q c fsm = (Done r, fsm, l) /\
    ((r = -1 /\
      forall j, 0 <= j < transitionCount fsm -> ~ matches fsm q c j) \/
     (0 <= r < transitionCount fsm /\ matches fsm q c r /\
      forall j, 0 <= j < r -> ~ matches fsm q c j)).
Proof.
  intros Hok. pose proof (findTransition_total fsm q c Hok) as H.
  apply total_run in H as (r & s' & l & Hrun & -> & -> & _).
  exists (default (-1) (first_match fsm q c)), l. split; [done|].
  destruct (first_match fsm q c) as [i|] eqn:Hfm; cbn.
  - right. by apply first_match_Some.
  - left. split; [done|]. by apply first_match_None.
Qed.

Lemma findTransition_first_registered_witness :
  transitions_ok sampleFSM /\
  exists r l,
    findTransition 1 "b" sampleFSM = (Done r, sampleFSM, l) /\
    ((r = -1 /\
      forall j, 0 <= j < transitionCount sampleFSM ->
                ~ matches sampleFSM 1 "b" j) \/
     (0 <= r < transitionCount sampleFSM /\ matches sampleFSM 1 "b" r /\
      forall j, 0 <= j < r -> ~ matches sampleFSM 1 "b" j)).
Proof.
  assert (Hok : transitions_ok sampleFSM) by by_computation.
  split; [exact Hok|].
  exact (findTransition_first_registered sampleFSM 1 "b" Hok).
Defined.

(** ** Capacity of the registries *)

(** C6.  With the registry at its maximum, [addState] returns -1, prints its
    error and leaves the automaton as it was; below the maximum it stores the
    new state in cell [stateCount], adds one to [stateCount], changes nothing
    else and returns the index of that cell. *)
Theorem addState_capacity fsm nm acc :
  0 <= stateCount fsm ->
  (MAX_STATES <= stateCount fsm ->
   addState nm acc fsm = (Done (-1), fsm, [EvPrintf states_full_message])) /\
  (stateCount fsm < MAX_STATES ->
   exists st,
     isAccepting st = acc /\
     addState nm acc fsm =
       (Done (stateCount fsm),
        set_stateCount (stateCount fsm + 1)
          (set_states (<[stateCount fsm := st]> (states fsm)) fsm),
        [EvWrite AStates (stateCount fsm)])).
Proof.
  intros Hpos. split; intros Hcount.
  - unfold addState, bind, get. cbn. by rewrite decide_True.
  - eexists. split; [|unfold addState, bind, get, store, put, log, ret; cbn].
    2:{ rewrite decide_False by lia.
        rewrite decide_True by (unfold capacity; lia). reflexivity. }
    done.
Qed.

Lemma addState_capacity_witness :
  (addState (list_ascii_of_string "q100") 1 full_registry
   = (Done (-1), full_registry, [EvPrintf states_full_message])) /\
  (exists st,
     isAccepting st = 1 /\
     addState (list_ascii_of_string "q3") 1 sampleFSM =
       (Done 3,
        set_stateCount 4 (set_states (<[3 := st]> (states sampleFSM)) sampleFSM),
        [EvWrite AStates 3])).
Proof.
  split.
  - apply (addState_capacity full_registry (list_ascii_of_string "q100") 1);
      by_computation.
  - apply (addState_capacity sampleFSM (list_ascii_of_string "q3") 1);
      by_computation.
Defined.

(** C7.  With the transition table at its maximum, [addTransition] prints its
    error and returns with the automaton as it was: no transition stored,
    [transitionCount] the same, the alphabet and its size the same. *)
Theorem addTransition_capacity fsm from to c :
  MAX_TRANSITIONS <= transitionCount fsm ->
  addTransition from to c fsm
  = (Done tt, fsm, [EvPrintf transitions_full_message]).
Proof.
  intros Hfull. unfold addTransition, bind, get. cbn.
  by rewrite decide_True.
Qed.

Lemma addTransition_capacity_witness :
  MAX_TRANSITIONS <= transitionCount full_table /\
  addTransition 2 1 "z" full_table
  = (Done tt, full_table, [EvPrintf transitions_full_message]).
Proof.
  assert (H : MAX_TRANSITIONS <= transitionCount full_table) by by_computation.
  split; [exact H|]. exact (addTransition_capacity full_table 2 1 "z" H).
Defined.

(** ** Stored names *)

Lemma c_str_no_NUL s : Forall (fun c => c <> NUL) (c_str s).
Proof.
  induction s as [|c s IH]; cbn; [constructor|].
  destruct (decide (c = NUL)); [constructor|]. by constructor.
Qed.

Lemma strncpy_length src n : length (strncpy src n) = n.
Proof.
  unfold strncpy, strlen.
  rewrite length_app, length_take, length_replicate. lia.
Qed.

Lemma read_str_NUL n buf : read_str (S n) (NUL :: buf) = Some [].
Proof. reflexivity. Qed.

Lemma read_str_char n c buf :
  c <> NUL -> read_str (S n) (c :: buf) = (c ::.) <$> read_str n buf.
Proof. intros Hc. cbn [read_str]. by rewrite decide_False. Qed.

Lemma read_str_padded s : Forall (fun c => c <> NUL) s -> forall n,
  read_str (S n) ((take n s ++ replicate (n - length s) NUL) ++ [NUL])
  = Some (take n s).
Proof.
  induction 1 as [|c s Hc Hs IH]; intros n.
  - rewrite take_nil. destruct n as [|n]; apply read_str_NUL.
  - destruct n as [|n]; [apply read_str_NUL|].
    etrans; [apply (read_str_char _ c), Hc|].
    cbn [length Nat.sub]. by rewrite IH.
Qed.

Lemma take_min_length {A} (l : list A) n :
  take (length l `min` n) l = take n l.
Proof.
  destruct (decide (length l <= n)%nat) as [Hle|Hgt].
  - rewrite Nat.min_l by done. by rewrite !take_ge.
  - by rewrite Nat.min_r by lia.
Qed.

(** C10.  Below the maximum, [addState] succeeds whatever the name given.
    The name it stores fills the [MAX_NAME_LEN] bytes of the buffer, ends
    with a NUL in the last byte, and reads back as the first
    [min (strlen name) (MAX_NAME_LEN - 1)] characters of the name given: a
    longer name is cut, not refused. *)
Theorem addState_name_truncated fsm nm acc :
  0 <= stateCount fsm < MAX_STATES ->
  exists st s' l,
    addState nm acc fsm = (Done (stateCount fsm), s', l) /\
    states s' !! stateCount fsm = Some st /\
    length (name st) = MAX_NAME_LEN /\
    name st !! (MAX_NAME_LEN - 1)%nat = Some NUL /\
    read_str MAX_NAME_LEN (name st)
    = Some (take (strlen nm `min` (MAX_NAME_LEN - 1)) (c_str nm)).
Proof.
  intros Hcount.
  exists {| name := strncpy nm (MAX_NAME_LEN - 1) ++ [NUL]; isAccepting := acc |}.
  do 2 eexists. split.
  { unfold addState, bind, get, store, put, log, ret. cbn.
    rewrite decide_False by lia.
    rewrite decide_True by (unfold capacity; lia). reflexivity. }
  cbn [states set_stateCount set_states name].
  split; [by rewrite lookup_insert_eq|].
  split; [rewrite length_app, strncpy_length; by cbn|].
  split.
  - rewrite lookup_app_r; rewrite strncpy_length; [|done].
    by rewrite Nat.sub_diag.
  - unfold strlen. rewrite take_min_length. unfold strncpy, strlen.
    apply (read_str_padded _ (c_str_no_NUL nm) (MAX_NAME_LEN - 1)).
Qed.

Lemma addState_name_truncated_witness :
  exists st s' l,
    addState long_name 0 sampleFSM = (Done (stateCount sampleFSM), s', l) /\
    states s' !! stateCount sampleFSM = Some st /\
    length (name st) = MAX_NAME_LEN /\
    name st !! (MAX_NAME_LEN - 1)%nat = Some NUL /\
    read_str MAX_NAME_LEN (name st)
    = Some (take (strlen long_name `min` (MAX_NAME_LEN - 1)) (c_str long_name)).
Proof.
  apply (addState_name_truncated sampleFSM long_name 0). by_computation.
Defined.

Lemma addState_well_formed fsm nm acc :
  well_formed fsm -> well_formed (state_after (addState nm acc) fsm).
Proof.
  intros ((Hb & Hn) & Htr & Hal). unfold state_after, addState, bind, get. cbn.
  destruct (decide (MAX_STATES <= stateCount fsm)) as [Hfull|Hroom]; [done|].
  unfold store, bind, log, put, ret. cbn.
  rewrite decide_True by (unfold capacity; lia). cbn.
  split; [|done]. split; cbn; [lia|].
  apply named_intro. intros i Hi.
  destruct (decide (i = stateCount fsm)) as [->|Hne].
  - rewrite lookup_insert_eq. eexists. split; [done|].
    unfold terminated. cbn [name]. unfold strncpy, strlen.
    eexists. apply (read_str_padded _ (c_str_no_NUL nm) (MAX_NAME_LEN - 1)).
  - rewrite lookup_insert_ne by done. apply (named_lookup _ _ _ Hn). lia.
Qed.

(** ** What [processString] changes, and what it depends on *)

Lemma always_conseq {A} (m : M A) s
    (Q Q' : outcome A -> FSM -> list event -> Prop) :
  always m s Q -> (forall o s' l, Q o s' l -> Q' o s' l) -> always m s Q'.
Proof.
  unfold always. destruct (m s) as [[o s'] l]. intros HQ Himp. by apply Himp.
Qed.

Lemma always_ret {A} (v : A) s (Q : outcome A -> FSM -> list event -> Prop) :
  Q (Done v) s [] -> always (ret v) s Q.
Proof. intros HQ. exact HQ. Qed.

Lemma always_raise {A} f s (Q : outcome A -> FSM -> list event -> Prop) :
  Q (Fault f) s [] -> always (raise f) s Q.
Proof. intros HQ. exact HQ. Qed.

Lemma always_bind {A B} (m : M A) (k : A -> M B) s
    (Q : outcome B -> FSM -> list event -> Prop) :
  always m s (fun o s1 l1 =>
    match o with
    | Done v => always (k v) s1 (fun o' s2 l2 => Q o' s2 (l1 ++ l2))
    | Fault f => Q (Fault f) s1 l1
    end) ->
  always (bind m k) s Q.
Proof.
  unfold always, bind. destruct (m s) as [[[v|f] s1] l1]; [|done].
  by destruct (k v s1) as [[o s2] l2].
Qed.

Lemma always_get s (Q : outcome FSM -> FSM -> list event -> Prop) :
  Q (Done s) s [] -> always get s Q.
Proof. intros HQ. exact HQ. Qed.

Lemma always_put s' s (Q : outcome unit -> FSM -> list event -> Prop) :
  Q (Done tt) s' [] -> always (put s') s Q.
Proof. intros HQ. exact HQ. Qed.

Lemma always_load {T} a (cells : gmap Z T) i s
    (Q : outcome T -> FSM -> list event -> Prop) :
  (forall o, Q o s [EvRead a i]) -> always (load a cells i) s Q.
Proof.
  intros HQ. unfold load. apply always_bind. unfold always at 1, log.
  destruct (decide _); [destruct (cells !! i)|];
    first [apply always_ret | apply always_raise]; apply HQ.
Qed.

Lemma always_store {T} a (cells : gmap Z T) i v s
    (Q : outcome (gmap Z T) -> FSM -> list event -> Prop) :
  (forall o, Q o s [EvWrite a i]) -> always (store a cells i v) s Q.
Proof.
  intros HQ. unfold store. apply always_bind. unfold always at 1, log.
  destruct (decide _); first [apply always_ret | apply always_raise]; apply HQ.
Qed.

Lemma charInAlphabet_from_pure todo : forall i c,
  pure_run (charInAlphabet_from todo i c).
Proof.
  induction todo as [|todo IH]; intros i c s; cbn [charInAlphabet_from].
  - by apply always_ret.
  - apply always_bind, always_get, always_bind, always_load.
    intros [x|f]; [|done]. destruct (decide (x = c)); [by apply always_ret|].
    eapply always_conseq; [apply IH|]. by intros o s' l ->.
Qed.

Lemma charInAlphabet_pure c : pure_run (charInAlphabet c).
Proof.
  intros s. unfold charInAlphabet. apply always_bind, always_get.
  eapply always_conseq; [apply charInAlphabet_from_pure|]. by intros o s' l ->.
Qed.

Lemma findTransition_from_pure todo : forall i q c,
  pure_run (findTransition_from todo i q c).
Proof.
  induction todo as [|todo IH]; intros i q c s; cbn [findTransition_from].
  - by apply always_ret.
  - apply always_bind, always_get, always_bind, always_load.
    intros [t|f]; [|done]. destruct (decide _); [by apply always_ret|].
    eapply always_conseq; [apply IH|]. by intros o s' l ->.
Qed.

Lemma findTransition_pure q c : pure_run (findTransition q c).
Proof.
  intros s. unfold findTransition. apply always_bind, always_get.
  eapply always_conseq; [apply findTransition_from_pure|]. by intros o s' l ->.
Qed.

Lemma state_name_pure i : pure_run (state_name i).
Proof.
  intros s. unfold state_name. apply always_bind, always_get.
  apply always_bind, always_load. intros [st|f]; [|done].
  destruct (read_str _ _); by first [apply always_ret | apply always_raise].
Qed.

Lemma sprintf_trace_pure result msg : pure_run (sprintf_trace result msg).
Proof.
  intros s. unfold sprintf_trace. apply always_bind, always_store.
  intros [cells|f]; [|done].
  destruct (decide _); by first [apply always_ret | apply always_raise].
Qed.

Lemma same_tables_refl s : same_tables s s.
Proof. by destruct s. Qed.

Lemma same_tables_cursor s q : same_tables s (set_currentState q s).
Proof. by destruct s. Qed.

Lemma same_tables_trans s1 s2 s3 :
  same_tables s1 s2 -> same_tables s2 s3 -> same_tables s1 s3.
Proof. unfold same_tables. intros -> ->. by destruct s1. Qed.

Ltac pure_step lem :=
  apply always_bind; eapply always_conseq; [apply lem|];
  cbv beta; intros [?|?] ? ? ->; [|by auto using same_tables_refl].

Lemma scan_same_tables rest : forall result s,
  always (scan rest result) s (fun _ s' _ => same_tables s s').
Proof.
  induction rest as [|c rest IH]; intros result s; cbn [scan].
  - apply always_ret, same_tables_refl.
  - pure_step charInAlphabet_pure.
    destruct (decide _).
    + pure_step sprintf_trace_pure. apply always_ret, same_tables_refl.
    + apply always_bind, always_get. pure_step findTransition_pure.
      destruct (decide _).
      * apply always_bind, always_get, always_bind, always_load.
        intros [t|f]; [|apply same_tables_refl].
        apply always_bind, always_put.
        pure_step state_name_pure.
        pure_step state_name_pure.
        pure_step sprintf_trace_pure.
        eapply always_conseq; [apply IH|]. cbv beta. intros _ s' _ Hs'.
        eapply same_tables_trans; [apply same_tables_cursor|exact Hs'].
      * apply always_bind, always_get. pure_step state_name_pure.
        pure_step sprintf_trace_pure. apply always_ret, same_tables_refl.
Qed.

Lemma processString_same_tables input s :
  always (processString input) s (fun _ s' _ => same_tables s s').
Proof.
  unfold processString, resetFSM.
  apply always_bind, always_bind, always_get, always_put, always_bind, always_get.
  pure_step state_name_pure.
  pure_step sprintf_trace_pure.
  apply always_bind. eapply always_conseq; [apply scan_same_tables|].
  cbv beta. intros o s1 _ Hs1.
  assert (H1 : same_tables s s1).
  { eapply same_tables_trans; [apply same_tables_cursor|exact Hs1]. }
  destruct o as [[r|r]|f]; [by apply always_ret| |done].
  apply always_bind, always_get, always_bind, always_load.
  intros [st|f]; [|done].
  match goal with |- always (bind ?m _) _ _ =>
    assert (Hpure : pure_run m) by (destruct (decide _); apply sprintf_trace_pure)
  end.
  pure_step Hpure. by apply always_ret.
Qed.

(** C5.  Whatever the automaton and the input, and however the call ends,
    [processString] leaves the states, [stateCount], the transitions,
    [transitionCount], the alphabet, [alphabetSize] and [initialState] as they
    were: of the automaton it can only move the cursor. *)
Theorem processString_frame fsm input :
  let s' := state_after (processString input) fsm in
  states s' = states fsm /\
  stateCount s' = stateCount fsm /\
  transitions s' = transitions fsm /\
  transitionCount s' = transitionCount fsm /\
  alphabet s' = alphabet fsm /\
  alphabetSize s' = alphabetSize fsm /\
  initialState s' = initialState fsm.
Proof.
  pose proof (processString_same_tables input fsm) as H.
  unfold always in H. unfold state_after.
  destruct (processString input fsm) as [[o s'] l]. cbn.
  rewrite H. by destruct fsm.
Qed.

Lemma processString_cursor input fsm c :
  processString input (set_currentState c fsm) = processString input fsm.
Proof. reflexivity. Qed.

Lemma processString_same_tables_eq input s s' :
  same_tables s s' -> processString input s' = processString input s.
Proof. intros ->. apply processString_cursor. Qed.

(** C4.  The result of [processString] (verdict, trace, and with them the
    final cursor and the accesses made) depends on the tables of the
    automaton and on the input only: the cursor found at the call does not
    matter, be it any value at all, the one an earlier [processString] left,
    or the one [resetFSM] set. *)
Theorem processString_deterministic fsm input :
  (forall c,
     processString input (set_currentState c fsm) = processString input fsm) /\
  (forall earlier,
     processString input (state_after (processString earlier) fsm)
     = processString input fsm) /\
  processString input (state_after resetFSM fsm) = processString input fsm.
Proof.
  split; [|split].
  - intros c. apply processString_cursor.
  - intros earlier. apply processString_same_tables_eq.
    pose proof (processString_same_tables earlier fsm) as H.
    unfold always in H. unfold state_after.
    by destruct (processString earlier fsm) as [[o s'] l].
  - reflexivity.
Qed.

(** ** The sample automaton *)

(** Three states q0, q1, q2, of which q2 alone accepts; the transitions
    q0 -a-> q1, q1 -b-> q2, q2 -c-> q0; the alphabet a, b, c; q0 initial. *)
Lemma sampleFSM_tables :
  stateCount sampleFSM = 3 /\
  name_of sampleFSM <$> [0; 1; 2] = ["q0"; "q1"; "q2"] /\
  accepting_flag sampleFSM <$> [0; 1; 2] = [0; 0; 1] /\
  transitionCount sampleFSM = 3 /\
  (fun i => transitions sampleFSM !! i) <$> [0; 1; 2]
  = [Some (mkTransition 0 1 "a"); Some (mkTransition 1 2 "b");
     Some (mkTransition 2 0 "c")] /\
  alphabetSize sampleFSM = 3 /\
  (fun i => alphabet sampleFSM !! i) <$> [0; 1; 2]
  = [Some "a"%char; Some "b"%char; Some "c"%char] /\
  initialState sampleFSM = 0 /\ currentState sampleFSM = 0.
Proof. vm_compute. repeat split. Qed.

(** The other inputs [main] tries, and one without transition. *)
Example sample_ab_accepted :
  result_of (processString (list_ascii_of_string "ab")) sampleFSM
  = Done (traced 1 ["Starting at state: q0"; "Read 'a': q0 -> q1";
                    "Read 'b': q1 -> q2"; "✓ String ACCEPTED"]).
Proof. vm_compute. reflexivity. Qed.

Example sample_xyz_unknown_symbol :
  result_of (processString (list_ascii_of_string "xyz")) sampleFSM
  = Done (traced 0 ["Starting at state: q0"; "Error: 'x' not in alphabet"]).
Proof. vm_compute. reflexivity. Qed.

Example sample_ac_no_transition :
  result_of (processString (list_ascii_of_string "ac")) sampleFSM
  = Done (traced 0 ["Starting at state: q0"; "Read 'a': q0 -> q1";
                    "No transition for 'c' from q1"]).
Proof. vm_compute. reflexivity. Qed.

(** C1 as stated: on "abc" the sample automaton would yield the five records
    ending with the bare text "REJECTED".  The program ends its trace with a
    longer text, so that result is not the one returned. *)
Lemma sample_abc_not_bare_REJECTED :
  result_of (processString (list_ascii_of_string "abc")) sampleFSM
  <> Done (traced 0 ["Starting at state: q0"; "Read 'a': q0 -> q1";
                     "Read 'b': q1 -> q2"; "Read 'c': q2 -> q0";
                     "REJECTED"]).
Proof. vm_compute. discriminate. Qed.

(** C1, amended.  On "abc" the sample automaton returns [accepted = 0], the
    cursor on q0 (state 0, not accepting), [traceCount = 5], and a trace that
    holds exactly the five records below: the last one is the text
    "✗ String REJECTED". *)
Theorem sample_abc_rejected :
  exists l,
    processString (list_ascii_of_string "abc") sampleFSM
    = (Done (traced 0 ["Starting at state: q0"; "Read 'a': q0 -> q1";
                       "Read 'b': q1 -> q2"; "Read 'c': q2 -> q0";
                       "✗ String REJECTED"]),
       set_currentState 0 sampleFSM, l) /\
    accepting_flag sampleFSM 0 = 0 /\
    name_of sampleFSM 0 = "q0".
Proof. eexists. vm_compute. repeat split. Qed.

(** ** Length and shape of the trace *)

Lemma loop_records_shape fsm : forall s q,
  match failure_index fsm q s with
  | None => Forall2 is_read s (loop_records fsm q s)
  | Some i =>
      exists reads last c,
        loop_records fsm q s = reads ++ [last] /\
        Forall2 is_read (take i s) reads /\
        s !! i = Some c /\ is_failure c last
  end.
Proof.
  induction s as [|c s IH]; intros q; cbn [failure_index loop_records].
  - constructor.
  - destruct (decide (in_alphabet fsm c)).
    + destruct (delta fsm q c) as [q'|].
      * specialize (IH q').
        destruct (failure_index fsm q' s) as [k|]; cbn [fmap option_fmap option_map].
        -- destruct IH as (reads & last & c' & -> & Hreads & Hc' & Hlast).
           exists (msg_read c (name_of fsm q) (name_of fsm q') :: reads), last, c'.
           split; [done|]. split; [|done].
           cbn [take]. constructor; [by eexists _, _|done].
        -- constructor; [by eexists _, _|done].
      * exists [], (msg_no_transition c (name_of fsm q)), c.
        split; [done|]. split; [constructor|]. split; [done|].
        right. by eexists.
    + exists [], (msg_unknown c), c.
      split; [done|]. split; [constructor|]. split; [done|]. by left.
Qed.

Lemma traced_cells acc recs k :
  is_Some (trace (traced acc recs) !! k) <->
  0 <= k < traceCount (traced acc recs).
Proof.
  cbn [trace traced traceCount].
  rewrite lookup_map_seqZ_is_Some, length_fmap. lia.
Qed.

(** C2.  On a well-formed automaton with valid indices and an input of
    length [n] whose records fit the trace, [processString] returns, and the
    cells of its trace are exactly those below [traceCount].  When the scan
    meets no failure, [traceCount = n + 2]: the start record, one read record
    per character, the verdict.  When the scan fails at character [i]
    (unknown symbol or no transition), [traceCount = i + 2]: the start
    record, a read record for each of the [i] characters before, the failure
    record of character [i], and nothing for the characters after it. *)
Theorem processString_trace_length fsm input :
  well_formed fsm -> valid_indices fsm ->
  Z.of_nat (strlen input) + 2 <= MAX_TRACE ->
  exists r s' l first reads last,
    processString input fsm = (Done r, s', l) /\
    r = traced (accepted r) (first :: reads ++ [last]) /\
    (forall k, is_Some (trace r !! k) <-> 0 <= k < traceCount r) /\
    is_start first /\
    match failure_index fsm (initialState fsm) (c_str input) with
    | None =>
        traceCount r = Z.of_nat (strlen input) + 2 /\
        Forall2 is_read (c_str input) reads /\
        is_verdict last
    | Some i =>
        traceCount r = Z.of_nat i + 2 /\
        Forall2 is_read (take i (c_str input)) reads /\
        exists c, c_str input !! i = Some c /\ is_failure c last
    end.
Proof.
  intros Hwf Hvalid Hlen.
  pose proof (processString_total fsm input Hwf Hvalid Hlen) as H.
  apply total_run in H as (r & s' & l & Hrun & -> & _ & _).
  pose proof (loop_records_shape fsm (c_str input) (initialState fsm)) as Hshape.
  unfold expected_result, expected_records, expected_accepted in Hrun.
  set (q0 := initialState fsm) in *. set (s := c_str input) in *.
  destruct (failure_index fsm q0 s) as [i|].
  - destruct Hshape as (reads & last & c & Hrecs & Hreads & Hc & Hlast).
    exists (traced 0 (msg_start (name_of fsm q0) :: loop_records fsm q0 s ++ [])),
           s', l, (msg_start (name_of fsm q0)), reads, last.
    split; [exact Hrun|]. rewrite app_nil_r, Hrecs.
    split; [done|]. split; [apply traced_cells|]. split; [by eexists|].
    split; [|split; [done|by exists c]].
    cbn [traceCount traced length]. rewrite length_app. cbn [length].
    apply Forall2_length in Hreads. rewrite length_take in Hreads.
    apply lookup_lt_Some in Hc. lia.
  - set (flag := accepting_flag fsm (cursor_after fsm q0 s)).
    exists (traced flag (msg_start (name_of fsm q0)
                           :: loop_records fsm q0 s ++ [verdict_record flag])),
           s', l, (msg_start (name_of fsm q0)), (loop_records fsm q0 s),
           (verdict_record flag).
    split; [exact Hrun|]. split; [done|]. split; [apply traced_cells|].
    split; [by eexists|]. split; [|split; [done|]].
    + cbn [traceCount traced length]. rewrite length_app. cbn [length].
      apply Forall2_length in Hshape. unfold strlen. fold s. lia.
    + unfold verdict_record, is_verdict. case_decide; auto.
Qed.

Lemma processString_trace_length_witness :
  exists r s' l first reads last,
    processString (list_ascii_of_string "ac") sampleFSM = (Done r, s', l) /\
    r = traced (accepted r) (first :: reads ++ [last]) /\
    (forall k, is_Some (trace r !! k) <-> 0 <= k < traceCount r) /\
    is_start first /\
    match failure_index sampleFSM (initialState sampleFSM)
            (c_str (list_ascii_of_string "ac")) with
    | None =>
        traceCount r = Z.of_nat (strlen (list_ascii_of_string "ac")) + 2 /\
        Forall2 is_read (c_str (list_ascii_of_string "ac")) reads /\
        is_verdict last
    | Some i =>
        traceCount r = Z.of_nat i + 2 /\
        Forall2 is_read (take i (c_str (list_ascii_of_string "ac"))) reads /\
        exists c, c_str (list_ascii_of_string "ac") !! i = Some c /\
                  is_failure c last
    end.
Proof.
  apply (processString_trace_length sampleFSM (list_ascii_of_string "ac"));
    by_computation.
Defined.

(** ** Accesses stay inside the arrays *)

Lemma loop_records_length fsm : forall s q,
  (length (loop_records fsm q s) <= length s)%nat.
Proof.
  induction s as [|c s IH]; intros q; cbn [loop_records length]; [lia|].
  destruct (decide _); [|cbn; lia].
  destruct (delta fsm q c) as [q'|]; cbn [length]; [|lia].
  specialize (IH q'). lia.
Qed.

(** C9.  On a well-formed automaton whose indices are valid, with an input
    of at most [MAX_TRACE - 2] characters, [processString] returns without a
    fault; its trace has at most [strlen input + 2] records; each store into
    the trace is at an index inside the array; each read of a state (for its
    name or its flag) is at an index below [stateCount]; the other accesses
    are reads of the transitions and of the alphabet below their counts. *)
Theorem processString_in_bounds fsm input :
  well_formed fsm -> valid_indices fsm ->
  Z.of_nat (strlen input) <= MAX_TRACE - 2 ->
  exists r s' l,
    processString input fsm = (Done r, s', l) /\
    traceCount r <= Z.of_nat (strlen input) + 2 /\
    Forall (access_ok fsm) l.
Proof.
  intros Hwf Hvalid Hlen.
  assert (Hlen' : Z.of_nat (strlen input) + 2 <= MAX_TRACE) by lia.
  pose proof (processString_total fsm input Hwf Hvalid Hlen') as H.
  apply total_run in H as (r & s' & l & Hrun & -> & _ & Hl).
  exists (expected_result fsm input), s', l.
  split; [exact Hrun|]. split; [|exact Hl].
  unfold expected_result, expected_records.
  cbn [traceCount traced length]. rewrite length_app.
  pose proof (loop_records_length fsm (c_str input) (initialState fsm)).
  unfold strlen. destruct (failure_index _ _ _); cbn [length]; lia.
Qed.

Lemma processString_in_bounds_witness :
  exists r s' l,
    processString input_98 sampleFSM = (Done r, s', l) /\
    traceCount r <= Z.of_nat (strlen input_98) + 2 /\
    Forall (access_ok sampleFSM) l.
Proof.
  apply (processString_in_bounds sampleFSM input_98); by_computation.
Defined.

(** The bound on the input is the largest possible: with 98 characters the
    trace is full, with 99 the verdict would go past its end. *)
Example trace_full_at_98 :
  exists r,
    result_of (processString input_98) sampleFSM = Done r /\
    traceCount r = MAX_TRACE.
Proof. eexists. split; vm_compute; reflexivity. Qed.

Example trace_overflow_at_99 :
  result_of (processString input_99) sampleFSM
  = Fault (OutOfBounds ATrace MAX_TRACE).
Proof. vm_compute. reflexivity. Qed.

(** ** Growth of the alphabet *)

Lemma initialised_intro {T} (cells : gmap Z T) n :
  (forall i, 0 <= i < n -> is_Some (cells !! i)) -> initialised cells n.
Proof.
  intros H. unfold initialised. apply Forall_forall. intros i Hi.
  apply elem_of_seqZ in Hi. apply H. lia.
Qed.

Lemma in_alphabet_spec fsm x :
  in_alphabet fsm x <->
  exists i, 0 <= i < alphabetSize fsm /\ alphabet fsm !! i = Some x.
Proof.
  unfold in_alphabet. rewrite Exists_exists. split.
  - intros (i & Hi & Hx). apply elem_of_seqZ in Hi. exists i. split; [lia|done].
  - intros (i & Hi & Hx). exists i. split; [apply elem_of_seqZ; lia|done].
Qed.

Lemma in_alphabet_extended fsm c x :
  alphabet_ok fsm ->
  in_alphabet
    (set_alphabetSize (alphabetSize fsm + 1)
       (set_alphabet (<[alphabetSize fsm := c]> (alphabet fsm)) fsm)) x
  <-> in_alphabet fsm x \/ x = c.
Proof.
  intros [Hb _]. rewrite !in_alphabet_spec.
  cbn [alphabet alphabetSize set_alphabetSize set_alphabet]. split.
  - intros (i & Hi & Hx). destruct (decide (i = alphabetSize fsm)) as [->|Hne].
    + rewrite lookup_insert_eq in Hx. right. congruence.
    + rewrite lookup_insert_ne in Hx by done. left. exists i. split; [lia|done].
  - intros [(i & Hi & Hx)| ->].
    + exists i. split; [lia|]. by rewrite lookup_insert_ne by lia.
    + exists (alphabetSize fsm). split; [lia|]. by rewrite lookup_insert_eq.
Qed.

Lemma alphabet_ok_extended fsm c :
  alphabet_ok fsm -> alphabetSize fsm < MAX_ALPHABET ->
  alphabet_ok
    (set_alphabetSize (alphabetSize fsm + 1)
       (set_alphabet (<[alphabetSize fsm := c]> (alphabet fsm)) fsm)).
Proof.
  intros [Hb Hinit] Hroom. split;
    cbn [alphabet alphabetSize set_alphabetSize set_alphabet]; [lia|].
  apply initialised_intro. intros i Hi.
  destruct (decide (i = alphabetSize fsm)) as [->|Hne].
  - rewrite lookup_insert_eq. by eexists.
  - rewrite lookup_insert_ne by done.
    apply (initialised_lookup _ _ _ Hinit). lia.
Qed.

Lemma addToAlphabet_total fsm c :
  alphabet_ok fsm ->
  total (addToAlphabet c) fsm (fun _ s' _ =>
    same_states fsm s' /\
    transitions s' = transitions fsm /\
    transitionCount s' = transitionCount fsm /\
    alphabet_ok s' /\
    forall x, in_alphabet s' x <->
              in_alphabet fsm x \/ (x = c /\ alphabetSize fsm < MAX_ALPHABET)).
Proof.
  intros Hok. unfold addToAlphabet. apply total_bind.
  eapply total_conseq; [by apply charInAlphabet_total|].
  intros v s' l (-> & -> & _). apply total_bind, total_get.
  destruct (decide (in_alphabet fsm c)) as [Hin|Hnin].
  - rewrite decide_False by done. apply total_ret.
    split; [done|]. do 3 (split; [done|]). intros x. split; [by left|].
    by intros [?|[-> _]].
  - rewrite decide_True by done.
    destruct (decide (alphabetSize fsm < MAX_ALPHABET)) as [Hroom|Hfull].
    + apply total_bind, total_store; [destruct Hok; unfold capacity; lia|].
      apply total_put. split; [done|]. do 2 (split; [done|]).
      split; [by apply alphabet_ok_extended|].
      intros x. rewrite in_alphabet_extended by done. tauto.
    + apply total_ret. split; [done|]. do 3 (split; [done|]).
      intros x. tauto.
Qed.

Lemma addTransition_total fsm from to c :
  transitions_ok fsm -> alphabet_ok fsm ->
  total (addTransition from to c) fsm (fun _ s' _ =>
    same_states fsm s' /\
    transitions_ok s' /\ alphabet_ok s' /\
    (transitionCount fsm < MAX_TRANSITIONS ->
     transitionCount s' = transitionCount fsm + 1 /\
     forall x, in_alphabet s' x <->
               in_alphabet fsm x \/ (x = c /\ alphabetSize fsm < MAX_ALPHABET)) /\
    (MAX_TRANSITIONS <= transitionCount fsm -> s' = fsm)).
Proof.
  intros Htr Hal. unfold addTransition. apply total_bind, total_get.
  destruct (decide (MAX_TRANSITIONS <= transitionCount fsm)) as [Hfull|Hroom].
  - unfold printf, log, total. split; [done|]. do 2 (split; [done|]).
    split; [lia|done].
  - destruct Htr as [Hb Hinit].
    apply total_bind, total_store; [unfold capacity; lia|].
    apply total_bind, total_put.
    set (s1 := set_transitionCount _ _).
    eapply total_conseq; [apply (addToAlphabet_total s1 c Hal)|].
    intros [] s' l ((Hs & Hn & Hi & Hc) & Ht & Htc & Hal' & Hin).
    split; [done|]. split.
    { split; rewrite ?Ht, Htc; subst s1;
        cbn [transitions transitionCount set_transitionCount set_transitions];
        [lia|].
      apply initialised_intro. intros i Hi'.
      destruct (decide (i = transitionCount fsm)) as [->|Hne].
      - rewrite lookup_insert_eq. by eexists.
      - rewrite lookup_insert_ne by done.
        apply (initialised_lookup _ _ _ Hinit). lia. }
    split; [done|]. split; [|lia].
    intros _. split; [by rewrite Htc|]. exact Hin.
Qed.

Lemma same_states_refl s : same_states s s.
Proof. by repeat split. Qed.

Lemma same_states_trans s1 s2 s3 :
  same_states s1 s2 -> same_states s2 s3 -> same_states s1 s3.
Proof.
  intros (? & ? & ? & ?) (? & ? & ? & ?). repeat split; congruence.
Qed.

Lemma addTransitions_total calls : forall fsm,
  transitions_ok fsm -> alphabet_ok fsm ->
  total (addTransitions calls) fsm (fun _ s' _ =>
    same_states fsm s' /\ transitions_ok s' /\ alphabet_ok s' /\
    (forall x, in_alphabet fsm x -> in_alphabet s' x) /\
    (forall x, in_alphabet s' x -> in_alphabet fsm x \/ x ∈ symbols calls)).
Proof.
  induction calls as [|[[from to] c] calls IH]; intros fsm Htr Hal.
  - apply total_ret. split; [apply same_states_refl|]. by auto.
  - cbn [addTransitions]. apply total_bind.
    eapply total_conseq; [by apply addTransition_total|].
    intros [] s1 l1 (Hs1 & Htr1 & Hal1 & Hroom & Hfull).
    eapply total_conseq; [by apply IH|].
    intros [] s2 l2 (Hs2 & Htr2 & Hal2 & Hmono & Honly).
    split; [by eapply same_states_trans|]. do 2 (split; [done|]).
    unfold symbols. cbn [fmap list_fmap snd].
    destruct (decide (transitionCount fsm < MAX_TRANSITIONS)) as [Hlt|Hge].
    + destruct (Hroom Hlt) as [_ Hin]. split.
      * intros x Hx. apply Hmono, Hin. by left.
      * intros x Hx. destruct (Honly x Hx) as [Hx1|Hx1].
        -- apply Hin in Hx1 as [?|[-> _]]; [by left|]. right. by left.
        -- right. by right.
    + rewrite (Hfull ltac:(lia)) in *. split; [done|].
      intros x Hx. destruct (Honly x Hx); [by left|]. right. by right.
Qed.

Lemma bind_assoc {A B C} (m : M A) (k : A -> M B) (h : B -> M C) s :
  bind (bind m k) h s = bind m (fun x => bind (k x) h) s.
Proof.
  unfold bind. destruct (m s) as [[[v|f] s1] l1]; [|done].
  destruct (k v s1) as [[[w|f] s2] l2]; [|done].
  destruct (h w s2) as [[o s3] l3]. by rewrite app_assoc.
Qed.

Lemma bind_ret_l {A B} (v : A) (k : A -> M B) s : bind (ret v) k s = k v s.
Proof. unfold bind, ret. by destruct (k v s) as [[o s2] l2]. Qed.

Lemma bind_ext {A B} (m : M A) (k k' : A -> M B) s :
  (forall v s1, k v s1 = k' v s1) -> bind m k s = bind m k' s.
Proof.
  intros H. unfold bind. destruct (m s) as [[[v|f] s1] l1]; [|done].
  by rewrite H.
Qed.

Lemma addTransitions_app l1 l2 s :
  addTransitions (l1 ++ l2) s
  = bind (addTransitions l1) (fun _ => addTransitions l2) s.
Proof.
  revert s. induction l1 as [|[[from to] c] l1 IH]; intros s.
  - cbn [app addTransitions]. by rewrite bind_ret_l.
  - cbn [app addTransitions]. rewrite bind_assoc. apply bind_ext.
    intros _ s1. apply IH.
Qed.

Lemma state_after_bind {A B} (m : M A) (k : A -> M B) s v s1 l1 :
  m s = (Done v, s1, l1) -> state_after (bind m k) s = state_after (k v) s1.
Proof.
  intros H. unfold state_after, bind. rewrite H.
  by destruct (k v s1) as [[o s2] l2].
Qed.

Lemma state_after_addTransitions_app l1 l2 s s1 lg :
  addTransitions l1 s = (Done tt, s1, lg) ->
  state_after (addTransitions (l1 ++ l2)) s
  = state_after (addTransitions l2) s1.
Proof.
  intros H. unfold state_after at 1. rewrite addTransitions_app.
  exact (state_after_bind (addTransitions l1) (fun _ => addTransitions l2)
           s tt s1 lg H).
Qed.

Lemma alphabetContains_spec fsm c :
  alphabet_ok fsm -> alphabetContains fsm c <-> in_alphabet fsm c.
Proof.
  intros Hok. pose proof (charInAlphabet_total fsm c Hok) as H.
  apply total_run in H as (v & s' & l & Hrun & _ & -> & _).
  unfold alphabetContains, result_of. rewrite Hrun. cbn.
  destruct (decide (in_alphabet fsm c)); split; done.
Qed.

Lemma charInAlphabet_absent fsm c :
  alphabet_ok fsm -> ~ in_alphabet fsm c ->
  result_of (charInAlphabet c) fsm = Done 0.
Proof.
  intros Hok Hnin. pose proof (charInAlphabet_total fsm c Hok) as H.
  apply total_run in H as (v & s' & l & Hrun & _ & -> & _).
  unfold result_of. rewrite Hrun. cbn. by rewrite decide_False.
Qed.

Lemma initializeFSM_tables g :
  transitions_ok (state_after initializeFSM g) /\
  alphabet_ok (state_after initializeFSM g) /\
  forall x, ~ in_alphabet (state_after initializeFSM g) x.
Proof.
  split; [|split].
  - split; [cbn; unfold MAX_TRANSITIONS; lia|apply Forall_nil_2].
  - split; [cbn; unfold MAX_ALPHABET; lia|apply Forall_nil_2].
  - intros x Hx. by apply Exists_nil in Hx.
Qed.

Lemma addTransitions_run fsm calls :
  transitions_ok fsm -> alphabet_ok fsm ->
  exists l,
    addTransitions calls fsm
    = (Done tt, state_after (addTransitions calls) fsm, l) /\
    transitions_ok (state_after (addTransitions calls) fsm) /\
    alphabet_ok (state_after (addTransitions calls) fsm) /\
    (forall x, in_alphabet fsm x ->
               in_alphabet (state_after (addTransitions calls) fsm) x) /\
    (forall x, in_alphabet (state_after (addTransitions calls) fsm) x ->
               in_alphabet fsm x \/ x ∈ symbols calls).
Proof.
  intros Htr Hal. pose proof (addTransitions_total calls fsm Htr Hal) as H.
  apply total_run in H as ([] & s' & l & Hrun & _ & H).
  unfold state_after. rewrite Hrun. cbn. by exists l.
Qed.

(** C3 as stated: every symbol passed to [addTransition] would be in the
    alphabet afterwards.  After 27 calls with 27 distinct symbols on a fresh
    automaton, the 27th symbol is not. *)
Lemma alphabet_misses_27th_symbol :
  "A"%char ∈ symbols twenty_seven_calls /\
  ~ alphabetContains
      (state_after (addTransitions twenty_seven_calls) fresh_FSM) "A".
Proof.
  split; [by_computation|]. intros H. vm_compute in H. discriminate.
Qed.

(** C3, amended.  Start from an automaton just initialised and call
    [addTransition] any number of times.  All the calls return.  A symbol
    the alphabet contains after some of the calls is still contained after
    all of them.  At the end [charInAlphabet] answers 0 for every symbol that
    was never passed, and 1 for every symbol passed by a call made while the
    transition table was not full and the alphabet either had room or
    already contained the symbol. *)
Theorem alphabet_after_addTransitions (g : FSM) calls :
  let s0 := state_after initializeFSM g in
  let s' := state_after (addTransitions calls) s0 in
  result_of (addTransitions calls) s0 = Done tt /\
  (forall before after c,
     calls = before ++ after ->
     alphabetContains (state_after (addTransitions before) s0) c ->
     alphabetContains s' c) /\
  (forall c,
     c ∉ symbols calls -> result_of (charInAlphabet c) s' = Done 0) /\
  (forall before from to c after,
     calls = before ++ (from, to, c) :: after ->
     let s := state_after (addTransitions before) s0 in
     transitionCount s < MAX_TRANSITIONS ->
     alphabetSize s < MAX_ALPHABET \/ alphabetContains s c ->
     alphabetContains s' c).
Proof.
  intros s0 s'.
  pose proof (initializeFSM_tables g) as H0.
  change (state_after initializeFSM g) with s0 in H0.
  destruct H0 as (Htr0 & Hal0 & Hempty).
  pose proof (addTransitions_run s0 calls Htr0 Hal0) as H'.
  change (state_after (addTransitions calls) s0) with s' in H'.
  destruct H' as (l & Hrun & Htr' & Hal' & Hmono & Honly).
  split; [unfold result_of; by rewrite Hrun|].
  assert (Hsplit : forall before after,
    calls = before ++ after ->
    let s := state_after (addTransitions before) s0 in
    transitions_ok s /\ alphabet_ok s /\
    s' = state_after (addTransitions after) s).
  { intros before after ->. cbn zeta.
    destruct (addTransitions_run s0 before Htr0 Hal0)
      as (lb & Hb & Htrb & Halb & _).
    split; [done|]. split; [done|]. unfold s'.
    apply (state_after_addTransitions_app _ _ _ _ _ Hb). }
  split; [|split].
  - intros before after c Hcalls Hc.
    destruct (Hsplit before after Hcalls) as (Htrb & Halb & Hs').
    apply alphabetContains_spec in Hc; [|done].
    apply alphabetContains_spec; [done|]. rewrite Hs'.
    destruct (addTransitions_run _ after Htrb Halb) as (_ & _ & _ & _ & Hm & _).
    by apply Hm.
  - intros c Hc. apply charInAlphabet_absent; [done|].
    intros [Hin|Hin]%Honly; [by apply (Hempty c)|done].
  - intros before from to c after Hcalls s Hroom Hspace.
    destruct (Hsplit before ((from, to, c) :: after) Hcalls)
      as (Htrb & Halb & Hs').
    change (state_after (addTransitions before) s0) with s in Htrb, Halb, Hs'.
    apply alphabetContains_spec; [done|]. rewrite Hs'.
    pose proof (addTransition_total s from to c Htrb Halb) as H1.
    apply total_run in H1 as ([] & s1 & l1 & Hrun1 & _ & Htr1 & Hal1 & Hin1 & _).
    destruct (Hin1 Hroom) as [_ Hin].
    rewrite (state_after_bind (addTransition from to c)
               (fun _ => addTransitions after) s tt s1 l1 Hrun1
             : state_after (addTransitions ((from, to, c) :: after)) s = _).
    destruct (addTransitions_run s1 after Htr1 Hal1) as (_ & _ & _ & _ & Hm & _).
    apply Hm, Hin.
    destruct Hspace as [Hlt|Hc]; [by right|].
    left. by apply alphabetContains_spec in Hc.
Qed.

Lemma alphabet_after_addTransitions_witness :
  alphabetContains
    (state_after (addTransitions [(0, 1, "a"%char); (1, 2, "b"%char)]) fresh_FSM)
    "b".
Proof.
  apply (alphabet_after_addTransitions (automatic_FSM 0)
           [(0, 1, "a"%char); (1, 2, "b"%char)])
    with (before := [(0, 1, "a"%char)]) (from := 1) (to := 2) (after := []).
  - reflexivity.
  - by_computation.
  - left. by_computation.
Defined.

Lemma addTransition_well_formed fsm from to c :
  well_formed fsm -> well_formed (state_after (addTransition from to c) fsm).
Proof.
  intros (Hst & Htr & Hal).
  pose proof (addTransition_total fsm from to c Htr Hal) as H.
  apply total_run in H as ([] & s' & l & Hrun & Hsame & Htr' & Hal' & _).
  unfold state_after. rewrite Hrun. cbn. split; [|done].
  destruct Hsame as (Hs & Hn & _). unfold states_ok. by rewrite Hs, Hn.
Qed.

Lemma sampleFSM_well_formed : well_formed sampleFSM /\ valid_indices sampleFSM.
Proof. split; by_computation. Qed.
